(** * The configurable tree diff of the REST provider (package [restapi])

    A shallow embedding of the reconciliation core of [api_object.go]:
    [matchesIgnorePattern], [_descendIgnoreList], [filterIgnoredFields],
    [getDelta], [mergeIgnoredFields] and the operation sequence issued by
    [patchMidpointObject] through [sendMidpointPatch].

    Go's [map[string]interface{}] is a finite map ([gmap string json]), Go's
    [[]interface{}] a list, and a Go string a [string] (a sequence of bytes).
    A runtime panic is the [None] of [option]. *)

From stdpp Require Import gmap strings list fin_maps.
From Stdlib Require Import ZArith Ascii.

Local Open Scope string_scope.

(** ** Values *)

(** The dynamic values that [encoding/json] puts behind an [interface{}]:
    [nil], [bool], [float64], [string], [map[string]interface{}] and
    [[]interface{}].  The code only ever tests numbers for equality, and a
    number read from JSON is finite, so a number is represented by an
    integer standing for its value. *)
#[warnings="-register-all"]
Inductive json : Type :=
  | JNull
  | JBool (b : bool)
  | JNum (n : Z)
  | JStr (s : string)
  | JObj (m : gmap string json)
  | JArr (l : list json).

Definition isNil (v : json) : bool :=
  match v with JNull => true | _ => false end.

Fixpoint jsize (v : json) : nat :=
  match v with
  | JObj m => S (map_fold (λ _ x acc, jsize x + acc) 0 m)
  | JArr l => S (foldr (λ x acc, jsize x + acc) 0 l)
  | _ => 1
  end.

(** ** Strings: the pieces of package [strings] that the code calls *)

Module strings.

(** [strings.HasPrefix(s, prefix)]. *)
Fixpoint HasPrefix (s pre : string) : bool :=
  match pre, s with
  | EmptyString, _ => true
  | String _ _, EmptyString => false
  | String c pre', String d s' => Ascii.eqb d c && HasPrefix s' pre'
  end.

(** The slice expression [s[n:]]; only used under a guard that makes
    [n <= len(s)]. *)
Fixpoint sliceFrom (n : nat) (s : string) : string :=
  match n, s with
  | O, _ => s
  | S n', String _ s' => sliceFrom n' s'
  | S _, EmptyString => EmptyString
  end.

(** [strings.Split(s, sep)] for a separator of one byte: the pieces
    between the separators, always at least one piece. *)
Fixpoint Split (s : string) (sep : Ascii.ascii) : list string :=
  match s with
  | EmptyString => [EmptyString]
  | String c s' =>
      if Ascii.eqb c sep then EmptyString :: Split s' sep
      else match Split s' sep with
           | piece :: pieces => String c piece :: pieces
           | [] => [String c EmptyString]
           end
  end.

(** [strings.Join(elems, sep)]. *)
Fixpoint Join (elems : list string) (sep : string) : string :=
  match elems with
  | [] => EmptyString
  | [e] => e
  | e :: rest => e ++ sep ++ Join rest sep
  end.

(** The slice expression [s[:n]]; only used under a guard that makes
    [n <= len(s)]. *)
Fixpoint sliceTo (n : nat) (s : string) : string :=
  match n, s with
  | S n', String c s' => String c (sliceTo n' s')
  | _, _ => EmptyString
  end.

(** [strings.LastIndex(s, sep)] for a separator of one byte: the index of
    its last occurrence, or -1. *)
Fixpoint LastIndex (s : string) (sep : Ascii.ascii) : Z :=
  match s with
  | EmptyString => -1
  | String c s' =>
      let n := LastIndex s' sep in
      if (0 <=? n)%Z then (n + 1)%Z
      else if Ascii.eqb c sep then 0%Z else (-1)%Z
  end.

(** [strings.HasSuffix(s, suffix)]:
    [len(s) >= len(suffix) && s[len(s)-len(suffix):] == suffix]. *)
Definition HasSuffix (s suffix : string) : bool :=
  Nat.leb (String.length suffix) (String.length s)
  && String.eqb (sliceFrom (String.length s - String.length suffix) s) suffix.

End strings.

(** ** Equality of dynamic values *)

(** [reflect.DeepEqual] on two values read from JSON: maps are equal when
    they have the same length and every key of the first is bound in the
    second to a deeply equal value; slices when they have the same length
    and are equal element by element; everything else by [==]. *)
Fixpoint DeepEqual (x y : json) {struct x} : bool :=
  match x, y with
  | JNull, JNull => true
  | JBool a, JBool b => Bool.eqb a b
  | JNum a, JNum b => Z.eqb a b
  | JStr a, JStr b => String.eqb a b
  | JObj m1, JObj m2 =>
      Nat.eqb (size m1) (size m2) &&
      map_fold (λ k v1 acc,
                  acc && match m2 !! k with
                         | Some v2 => DeepEqual v1 v2
                         | None => false
                         end) true m1
  | JArr l1, JArr l2 =>
      (fix elems (l1 l2 : list json) {struct l1} : bool :=
         match l1, l2 with
         | [], [] => true
         | a :: l1', b :: l2' => DeepEqual a b && elems l1' l2'
         | _, _ => false
         end) l1 l2
  | _, _ => false
  end.

(** The operator [==] on two [interface{}] values: values of different
    dynamic type are unequal; two maps or two slices cannot be compared and
    the comparison panics. *)
Definition ifaceEq (x y : json) : option bool :=
  match x, y with
  | JNull, JNull => Some true
  | JBool a, JBool b => Some (Bool.eqb a b)
  | JNum a, JNum b => Some (Z.eqb a b)
  | JStr a, JStr b => Some (String.eqb a b)
  | JObj _, JObj _ => None
  | JArr _, JArr _ => None
  | _, _ => Some false
  end.

(** ** Ignore patterns *)

(** [matchesIgnorePattern]: the loop over [ignoreList] with its two early
    returns. *)
Fixpoint matchesIgnorePattern (fieldName : string) (ignoreList : list string) : bool :=
  match ignoreList with
  | [] => false
  | pattern :: rest =>
      if String.eqb pattern fieldName then true
      else if strings.HasPrefix pattern "*."
              && String.eqb (strings.sliceFrom 2 pattern) fieldName then true
      else matchesIgnorePattern fieldName rest
  end.

(** One iteration of the loop of [_descendIgnoreList]: what the iteration
    appends to [newIgnoreList]. *)
Definition descendStep (descendPath : string) (newIgnoreList : list string)
    (ignorePath : string) : list string :=
  if strings.HasPrefix ignorePath "*." then newIgnoreList ++ [ignorePath]
  else
    let pathComponents := strings.Split ignorePath "."%char in
    if Nat.eqb (length pathComponents) 1 then newIgnoreList
    else match pathComponents with
         | first :: remaining =>
             if String.eqb first descendPath
             then newIgnoreList ++ [strings.Join remaining "."]
             else newIgnoreList
         | [] => newIgnoreList
         end.

Definition _descendIgnoreList (descendPath : string) (ignoreList : list string)
    : list string :=
  foldl (descendStep descendPath) [] ignoreList.

(** ** filterIgnoredFields *)

(** The loop body of [filterIgnoredFields] for one element of a slice. *)
Definition filterElem (self : json → list string → gmap string json)
    (descendedIgnoreList : list string) (elem : json) : json :=
  match elem with
  | JObj _ => JObj (self elem descendedIgnoreList)
  | _ => elem
  end.

(** The loop body of [filterIgnoredFields] for one key. *)
Definition filterKey (self : json → list string → gmap string json)
    (ignoreList : list string) (key : string) (value : json)
    (result : gmap string json) : gmap string json :=
  if matchesIgnorePattern key ignoreList then result
  else match value with
       | JObj _ =>
           <[key := JObj (self value (_descendIgnoreList key ignoreList))]> result
       | JArr sliceValue =>
           <[key := JArr (map (filterElem self (_descendIgnoreList key ignoreList))
                              sliceValue)]> result
       | _ => <[key := value]> result
       end.

(** The recursion goes through the values of the map, so the function is
    defined on the value that holds the map; it is only ever called on an
    object. *)
Fixpoint filterIgnoredFields_rec (data : json) (ignoreList : list string)
    {struct data} : gmap string json :=
  match data with
  | JObj fields => map_fold (filterKey filterIgnoredFields_rec ignoreList) ∅ fields
  | _ => ∅
  end.

(** [filterIgnoredFields(data, ignoreList)] for a non-nil map; a map read
    from JSON is never nil. *)
Definition filterIgnoredFields (data : gmap string json) (ignoreList : list string)
    : gmap string json :=
  filterIgnoredFields_rec (JObj data) ignoreList.

(** ** getDelta *)

Abbreviation delta := (option (gmap string json * bool)).

(** One index of the element loop of [getDelta]: the element stored in
    [modifiedSlice] and whether [sliceHasChanges] is set.
    [reflect.TypeOf(elemRecorded)] is the nil [Type] for a nil element, and
    calling [Kind] on it panics. *)
Definition deltaElem (self : json → gmap string json → list string → delta)
    (deeperIgnoreList : list string) (elemRecorded elemActual : json)
    : option (json * bool) :=
  match elemRecorded with
  | JNull => None
  | JObj _ =>
      match elemActual with
      | JObj mapActual =>
          '(modifiedElem, elemChanged) ← self elemRecorded mapActual deeperIgnoreList;
          if elemChanged : bool then Some (JObj modifiedElem, true)
          else Some (elemRecorded, false)
      | _ =>
          if negb (DeepEqual elemRecorded elemActual) then Some (elemActual, true)
          else Some (elemRecorded, false)
      end
  | _ =>
      if negb (DeepEqual elemRecorded elemActual) then Some (elemActual, true)
      else Some (elemRecorded, false)
  end.

(** The element loop, [for i := 0; i < len(sliceRecorded); i++], entered
    only when both slices have the same length: [modifiedSlice] and
    [sliceHasChanges]. An index beyond [sliceActual] would panic. *)
Definition deltaSlice (elem : json → json → option (json * bool))
    : list json → list json → option (list json * bool) :=
  fix loop (sliceRecorded sliceActual : list json) {struct sliceRecorded} :=
    match sliceRecorded, sliceActual with
    | [], _ => Some ([], false)
    | _ :: _, [] => None
    | elemRecorded :: restRecorded, elemActual :: restActual =>
        '(modifiedElem, elemChanged) ← elem elemRecorded elemActual;
        '(modifiedRest, restChanged) ← loop restRecorded restActual;
        Some (modifiedElem :: modifiedRest, elemChanged || restChanged)
    end.

(** The body of the first loop of [getDelta] for one key of
    [recordedResource]: the value assigned to [modifiedResource[key]] and
    whether the iteration sets [hasChanges]. *)
Definition deltaKey (self : json → gmap string json → list string → delta)
    (actualResource : gmap string json) (ignoreList : list string)
    (key : string) (valRecorded : json) : option (json * bool) :=
  if matchesIgnorePattern key ignoreList then Some (valRecorded, false)
  else
    let valActual := default JNull (actualResource !! key) in
    let actualHasKey := bool_decide (is_Some (actualResource !! key)) in
    match valRecorded with
    | JNull => Some (valActual, actualHasKey && negb (isNil valActual))
    | JObj _ =>
        match valActual with
        | JObj subMapB =>
            '(modifiedSubResource, hasChange) ←
              self valRecorded subMapB (_descendIgnoreList key ignoreList);
            if hasChange : bool then Some (JObj modifiedSubResource, true)
            else Some (valRecorded, false)
        | _ => Some (valActual, true)
        end
    | JArr sliceRecorded =>
        match valActual with
        | JArr sliceActual =>
            if negb (Nat.eqb (length sliceRecorded) (length sliceActual))
            then Some (valActual, true)
            else
              '(modifiedSlice, sliceHasChanges) ←
                deltaSlice (deltaElem self (_descendIgnoreList key ignoreList))
                           sliceRecorded sliceActual;
              if sliceHasChanges : bool then Some (JArr modifiedSlice, true)
              else Some (valRecorded, false)
        | _ =>
            (* neither cast of [valActual] succeeds: the [DeepEqual] fallback *)
            if negb (DeepEqual valRecorded valActual) then Some (valActual, true)
            else Some (valRecorded, false)
        end
    | _ =>
        same ← ifaceEq valRecorded valActual;
        if negb same then Some (valActual, true) else Some (valRecorded, false)
    end.

(** The first loop, over the keys of [recordedResource]. *)
Definition deltaRecorded (self : json → gmap string json → list string → delta)
    (actualResource : gmap string json) (ignoreList : list string)
    (key : string) (valRecorded : json) (acc : delta) : delta :=
  '(modifiedResource, hasChanges) ← acc;
  '(val, changed) ← deltaKey self actualResource ignoreList key valRecorded;
  Some (<[key := val]> modifiedResource, hasChanges || changed).

(** The second loop, over the keys of [actualResource]; [checkedKeys] holds
    exactly the keys of [recordedResource]. *)
Definition deltaActual (recordedResource : gmap string json)
    (ignoreList : list string) (key : string) (valActual : json)
    (acc : gmap string json * bool) : gmap string json * bool :=
  let alreadyChecked := bool_decide (is_Some (recordedResource !! key)) in
  if alreadyChecked then acc
  else if matchesIgnorePattern key ignoreList then acc
  else (<[key := valActual]> (fst acc), true).

(** [getDelta] itself. The recursion goes through the values of
    [recordedResource], so the function is defined on the value that holds
    the map; it is only ever called on an object. *)
Fixpoint getDelta_rec (recorded : json) (actualResource : gmap string json)
    (ignoreList : list string) {struct recorded} : delta :=
  match recorded with
  | JObj recordedResource =>
      acc ← map_fold (deltaRecorded getDelta_rec actualResource ignoreList)
                     (Some (∅, false)) recordedResource;
      Some (map_fold (deltaActual recordedResource ignoreList) acc actualResource)
  | _ => None
  end.

(** [getDelta(recordedResource, actualResource, ignoreList)]: the pair
    [(modifiedResource, hasChanges)], or [None] when the call panics. Every
    iteration of the two loops assigns its own key and can only raise
    [hasChanges], so the order in which Go enumerates the maps does not show
    in the result. *)
Definition getDelta (recordedResource actualResource : gmap string json)
    (ignoreList : list string) : delta :=
  getDelta_rec (JObj recordedResource) actualResource ignoreList.

(** ** mergeIgnoredFields *)

(** The body of the loop over [api]. [result] starts as a copy of [desired],
    and an iteration only assigns its own key. The recursion descends into
    [apiValue], so the function is defined on the value that holds [api]. *)
Definition mergeKey (self : gmap string json → json → list string → gmap string json)
    (ignoreList : list string) (key : string) (apiValue : json)
    (result : gmap string json) : gmap string json :=
  if matchesIgnorePattern key ignoreList then <[key := apiValue]> result
  else match result !! key with
       | Some (JObj desiredMap) =>
           match apiValue with
           | JObj _ =>
               <[key := JObj (self desiredMap apiValue
                                   (_descendIgnoreList key ignoreList))]> result
           | _ => result
           end
       | _ => result
       end.

Fixpoint mergeIgnoredFields_rec (desired : gmap string json) (api : json)
    (ignoreList : list string) {struct api} : gmap string json :=
  match api with
  | JObj apiFields =>
      map_fold (mergeKey mergeIgnoredFields_rec ignoreList) desired apiFields
  | _ => desired
  end.

Definition mergeIgnoredFields (desired api : gmap string json)
    (ignoreList : list string) : gmap string json :=
  mergeIgnoredFields_rec desired (JObj api) ignoreList.

(** ** patchMidpointObject *)

(** The [itemDelta] that [sendMidpointPatch] marshals into the body of one
    PATCH request; [value] is [None] when the key ["value"] is not set. *)
Record itemDelta : Type := ItemDelta {
  modificationType : string;
  path : string;
  value : option json
}.

(** [sendMidpointPatch(modificationType, path, value)] up to the request:
    the operation that is sent. *)
Definition sendMidpointPatch (ignoreChangesTo : list string)
    (modificationType path : string) (value : json) : itemDelta :=
  ItemDelta modificationType path
    (if negb (String.eqb modificationType "delete") && negb (isNil value)
     then Some match value with
               | JObj mapValue => JObj (filterIgnoredFields mapValue ignoreChangesTo)
               | JArr sliceValue =>
                   JArr (map (λ elem,
                                match elem with
                                | JObj mapElem =>
                                    JObj (filterIgnoredFields mapElem ignoreChangesTo)
                                | _ => elem
                                end) sliceValue)
               | _ => value
               end
     else None).

(** The only key of a map of length one, as the loops
    [for k := range m { key = k }] compute it. *)
Definition singleKey (m : gmap string json) : string :=
  map_fold (λ k _ _, k) "" m.

(** The unwrapping of the wrapper key: [(workingData, workingApiData)]. *)
Definition unwrap (data apiData : gmap string json)
    : gmap string json * gmap string json :=
  if Nat.eqb (size data) 1 && Nat.eqb (size apiData) 1 then
    let dataKey := singleKey data in
    let apiKey := singleKey apiData in
    if String.eqb dataKey apiKey then
      match data !! dataKey, apiData !! apiKey with
      | Some (JObj dataMap), Some (JObj apiMap) => (dataMap, apiMap)
      | _, _ => (data, apiData)
      end
    else (data, apiData)
  else (data, apiData).

(** The loop over [desiredData]: additions and replacements. *)
Definition patchDesired (ignoreChangesTo : list string)
    (workingApiData : gmap string json) (key : string) (desiredValue : json)
    (sent : list itemDelta) : list itemDelta :=
  match workingApiData !! key with
  | None => sent ++ [sendMidpointPatch ignoreChangesTo "add" key desiredValue]
  | Some currentValue =>
      if negb (DeepEqual currentValue desiredValue)
      then sent ++ [sendMidpointPatch ignoreChangesTo "replace" key desiredValue]
      else sent
  end.

(** The loop over [workingApiData]: deletions. *)
Definition patchDeleted (ignoreChangesTo : list string) (idAttribute : string)
    (desiredData : gmap string json) (key : string) (_ : json)
    (sent : list itemDelta) : list itemDelta :=
  if bool_decide (is_Some (desiredData !! key)) then sent
  else if String.eqb key idAttribute then sent
  else if matchesIgnorePattern key ignoreChangesTo then sent
  else sent ++ [sendMidpointPatch ignoreChangesTo "delete" key JNull].

(** The part of [patchMidpointObject] that follows the unwrapping: the
    operations sent for [workingData] against [workingApiData]. *)
Definition patchOperations (workingData workingApiData : gmap string json)
    (ignoreChangesTo : list string) (idAttribute : string) : list itemDelta :=
  let desiredData :=
    if Nat.ltb 0 (length ignoreChangesTo)
    then mergeIgnoredFields workingData workingApiData ignoreChangesTo
    else workingData in
  let sent := map_fold (patchDesired ignoreChangesTo workingApiData) [] desiredData in
  map_fold (patchDeleted ignoreChangesTo idAttribute desiredData) sent workingApiData.

(** [patchMidpointObject] on an object with fields [data], [apiData],
    [ignoreChangesTo] and [idAttribute]: the sequence of operations handed
    to [sendMidpointPatch], in the case where every request succeeds and the
    client does not read the object back ([writeReturnsObject] is off). The
    order within each of the two loops is the order in which the map is
    enumerated, which Go leaves open. *)
Definition patchMidpointObject (data apiData : gmap string json)
    (ignoreChangesTo : list string) (idAttribute : string) : list itemDelta :=
  let '(workingData, workingApiData) := unwrap data apiData in
  patchOperations workingData workingApiData ignoreChangesTo idAttribute.

(** ** Sample documents *)

Module Samples.

Definition roleDesired : gmap string json :=
  {[ "role" := JObj {[ "name" := JStr "x"; "priority" := JNum 5 ]} ]}.

Definition roleApi : gmap string json :=
  {[ "role" := JObj {[ "name" := JStr "x"; "priority" := JNum 3;
                       "@metadata" := JObj {[ "ts" := JNum 1 ]} ]} ]}.

Definition scopeRecorded : gmap string json :=
  {[ "metadata" := JStr "v1"; "outer" := JObj {[ "metadata" := JStr "v1" ]} ]}.

Definition scopeActual : gmap string json :=
  {[ "metadata" := JStr "v1"; "outer" := JObj {[ "metadata" := JStr "v2" ]} ]}.

Definition wrappedA : gmap string json := {[ "a" := JObj {[ "x" := JNum 1 ]} ]}.

Definition wrappedB : gmap string json := {[ "b" := JObj {[ "x" := JNum 1 ]} ]}.

Definition nilList : gmap string json := {[ "a" := JArr [JNull] ]}.

Definition nilListRecorded : gmap string json :=
  {[ "a" := JArr [JNull]; "b" := JNum 1 ]}.

Definition nilListActual : gmap string json :=
  {[ "a" := JArr [JNull]; "b" := JNum 2 ]}.

Definition itemsRecorded : gmap string json :=
  {[ "items" := JArr [JObj {[ "id" := JStr "1"; "name" := JStr "a" ]}] ]}.

Definition itemsActual : gmap string json :=
  {[ "items" := JArr [JObj {[ "id" := JStr "10"; "name" := JStr "a" ]}] ]}.

Definition listRecorded : gmap string json :=
  {[ "list" := JArr [JStr "foo"; JObj {[ "val" := JStr "x" ]}; JStr "bar"] ]}.

Definition listActual : gmap string json :=
  {[ "list" := JArr [JStr "foo"; JObj {[ "val" := JStr "Y" ]}; JStr "BAR"] ]}.

Definition listMerged : gmap string json :=
  {[ "list" := JArr [JStr "foo"; JObj {[ "val" := JStr "Y" ]}; JStr "BAR"] ]}.

Definition keysRecorded : gmap string json := {[ "a" := JNum 1 ]}.

Definition keysActual : gmap string json :=
  {[ "a" := JNum 1; "b" := JNum 2; "c" := JNum 3 ]}.

Definition keysMerged : gmap string json := {[ "a" := JNum 1; "b" := JNum 2 ]}.

Definition nullRecorded : gmap string json :=
  {[ "foo" := JStr "bar"; "baz" := JNull ]}.

Definition nullActual : gmap string json := {[ "foo" := JStr "bar" ]}.

Definition nullNilRecorded : gmap string json :=
  {[ "baz" := JNull; "a" := JArr [JNull] ]}.

Definition nullNilActual : gmap string json := {[ "a" := JArr [JNull] ]}.

End Samples.

(** ** The descent rules as the specification words them *)

Module Spec.

(** A wildcard pattern is one that begins with ["*."]. *)
Definition isWildcard (p : string) : bool :=
  match p with
  | String c1 (String c2 _) => Ascii.eqb c1 "*" && Ascii.eqb c2 "."
  | _ => false
  end.

(** The text before the first dot and the text after it; [None] for a
    pattern without a dot. *)
Fixpoint cutDot (p : string) : option (string * string) :=
  match p with
  | EmptyString => None
  | String c p' =>
      if Ascii.eqb c "." then Some (EmptyString, p')
      else match cutDot p' with
           | Some (first, rest) => Some (String c first, rest)
           | None => None
           end
  end.

(** What one pattern becomes one level inside [key]. *)
Definition descendPattern (key p : string) : option string :=
  if isWildcard p then Some p
  else match cutDot p with
       | None => None
       | Some (first, rest) => if decide (first = key) then Some rest else None
       end.

Definition descend (key : string) (patterns : list string) : list string :=
  omap (descendPattern key) patterns.

End Spec.

(** ** What the statements below speak of *)

(** What [getDelta] does for one key of the recorded resource. *)
Definition keyDelta (actualResource : gmap string json) (ignoreList : list string)
    (key : string) (valRecorded : json) : option (json * bool) :=
  deltaKey getDelta_rec actualResource ignoreList key valRecorded.

(** What [getDelta] does for one pair of elements of two slices. *)
Definition elemDelta (deeperIgnoreList : list string) (elemRecorded elemActual : json)
    : option (json * bool) :=
  deltaElem getDelta_rec deeperIgnoreList elemRecorded elemActual.

(** What the first loop of [getDelta] has computed once it has gone through
    the keys of [recorded]; [self] is the function called on nested
    resources. *)
Definition recordedInv (self : json → gmap string json → list string → delta)
    (actualResource : gmap string json) (ignoreList : list string)
    (acc : delta) (recorded : gmap string json) : Prop :=
  match acc with
  | None =>
      ∃ k vR, recorded !! k = Some vR ∧
              deltaKey self actualResource ignoreList k vR = None
  | Some (modified, changed) =>
      (∀ k vR, recorded !! k = Some vR →
         ∃ v ch, deltaKey self actualResource ignoreList k vR = Some (v, ch) ∧
                 modified !! k = Some v) ∧
      (∀ k, recorded !! k = None → modified !! k = None) ∧
      (changed = true ↔
         ∃ k vR v, recorded !! k = Some vR ∧
                   deltaKey self actualResource ignoreList k vR = Some (v, true))
  end.

(** What the second loop has added to the state [start] of the first one
    once it has gone through the keys of [actual]. *)
Definition actualInv (ignoreList : list string) (recordedResource : gmap string json)
    (start acc : gmap string json * bool) (actual : gmap string json) : Prop :=
  (∀ k, acc.1 !! k =
          match actual !! k with
          | Some vA =>
              if bool_decide (is_Some (recordedResource !! k)) then start.1 !! k
              else if matchesIgnorePattern k ignoreList then start.1 !! k
              else Some vA
          | None => start.1 !! k
          end) ∧
  (acc.2 = true ↔
     start.2 = true ∨
     ∃ k vA, actual !! k = Some vA ∧ recordedResource !! k = None ∧
             matchesIgnorePattern k ignoreList = false).

(** No slice anywhere in the value has a nil element. *)
#[warnings="-register-all"]
Inductive nilFree : json → Prop :=
  | nilFree_null : nilFree JNull
  | nilFree_bool b : nilFree (JBool b)
  | nilFree_num n : nilFree (JNum n)
  | nilFree_str s : nilFree (JStr s)
  | nilFree_obj (m : gmap string json) :
      (∀ k v, m !! k = Some v → nilFree v) → nilFree (JObj m)
  | nilFree_arr l :
      Forall (λ v, v ≠ JNull ∧ nilFree v) l → nilFree (JArr l).

(** The change flag of [getDelta] on [R] can only be lost, never gained,
    by a longer ignore list. *)
Definition changeMonotone (R : gmap string json) : Prop :=
  ∀ A (P P' : list string) M' M c,
    P ⊆ P' →
    getDelta R A P' = Some (M', true) →
    getDelta R A P = Some (M, c) →
    c = true.

(** The element comparison of [getDelta] finds a change at an index: for two
    objects, the recursive call under the descended ignore list reports
    one; for any other pair, the two elements are not equal. *)
Definition elemChanged (deeperIgnoreList : list string) (r a : json) : Prop :=
  match r, a with
  | JObj mr, JObj ma => ∃ sub, getDelta mr ma deeperIgnoreList = Some (sub, true)
  | _, _ => r ≠ a
  end.

(** The element [e] that the merged slice holds at an index: for two
    objects, the recursive merge when it reports a change and the recorded
    element otherwise; for any other pair, the recorded element when the two
    are equal and the actual element otherwise. *)
Definition elemMerged (deeperIgnoreList : list string) (r a e : json) : Prop :=
  match r, a with
  | JObj mr, JObj ma =>
      ∃ sub ch, getDelta mr ma deeperIgnoreList = Some (sub, ch) ∧
                e = if ch : bool then JObj sub else r
  | _, _ => (r = a → e = r) ∧ (r ≠ a → e = a)
  end.

(** ** What the filter and the merge store for one key *)

(** What [filterIgnoredFields] stores for a key that it keeps. *)
Definition filterValue (ignoreList : list string) (key : string) (value : json) : json :=
  match value with
  | JObj fields => JObj (filterIgnoredFields fields (_descendIgnoreList key ignoreList))
  | JArr sliceValue =>
      JArr (map (filterElem filterIgnoredFields_rec (_descendIgnoreList key ignoreList))
                sliceValue)
  | _ => value
  end.

(** The field name [f] is a key somewhere in the value, looking through
    objects and through the objects that are elements of a slice (but not
    through a slice that is itself an element of a slice). *)
Inductive hasField (f : string) : json → Prop :=
  | hasField_here (m : gmap string json) :
      is_Some (m !! f) → hasField f (JObj m)
  | hasField_obj (m : gmap string json) k v :
      m !! k = Some v → hasField f v → hasField f (JObj m)
  | hasField_arr l (m : gmap string json) :
      JObj m ∈ l → hasField f (JObj m) → hasField f (JArr l).

(** What [mergeIgnoredFields] leaves at a key that [api] binds to
    [apiValue], where [desiredValue] is what [desired] holds there. *)
Definition mergeValue (ignoreList : list string) (key : string)
    (desiredValue : option json) (apiValue : json) : option json :=
  if matchesIgnorePattern key ignoreList then Some apiValue
  else match desiredValue, apiValue with
       | Some (JObj desiredMap), JObj apiMap =>
           Some (JObj (mergeIgnoredFields desiredMap apiMap
                         (_descendIgnoreList key ignoreList)))
       | _, _ => desiredValue
       end.

(** ** The operations sent for one key *)

(** The operations that the first loop of [patchMidpointObject] sends for
    one key of [desiredData]. *)
Definition desiredOps (ignoreChangesTo : list string)
    (workingApiData : gmap string json) (key : string) (desiredValue : json)
    : list itemDelta :=
  patchDesired ignoreChangesTo workingApiData key desiredValue [].

(** The operations that the second loop sends for one key of
    [workingApiData]. *)
Definition deletedOps (ignoreChangesTo : list string) (idAttribute : string)
    (desiredData : gmap string json) (key : string) (apiValue : json)
    : list itemDelta :=
  patchDeleted ignoreChangesTo idAttribute desiredData key apiValue [].

(** ** The drift check of resourceRestAPIRead *)

(** [stateData] of [resourceRestAPIRead]: the data of the object, filtered
    when the ignore list is not empty. *)
Definition readStateData (data : gmap string json) (ignoreList : list string)
    : gmap string json :=
  if Nat.ltb 0 (length ignoreList) then filterIgnoredFields data ignoreList else data.

(** [hasDifferences] of [resourceRestAPIRead]: the flag of
    [getDelta(stateData, obj.apiData, ignoreList)]; [None] when [getDelta]
    panics. *)
Definition readHasDifferences (data apiData : gmap string json)
    (ignoreList : list string) : option bool :=
  snd <$> getDelta (readStateData data ignoreList) apiData ignoreList.

(** [dataToStore] of [resourceRestAPIRead]: the data of the API, filtered
    when the ignore list is not empty. *)
Definition readDataToStore (apiData : gmap string json) (ignoreList : list string)
    : gmap string json :=
  if Nat.ltb 0 (length ignoreList) then filterIgnoredFields apiData ignoreList
  else apiData.

(** Filtering the recorded resource first does not change what [getDelta]
    reports for it. *)
Definition filterInvisible (R : gmap string json) : Prop :=
  ∀ (A : gmap string json) (L : list string),
    snd <$> getDelta (filterIgnoredFields R L) A L = snd <$> getDelta R A L.

(** ** Descending through several keys *)

(** The ignore list in force after descending through the keys [keys], one
    after the other, as the recursive calls compute it. *)
Definition descendAlong (keys : list string) (ignoreList : list string) : list string :=
  foldl (λ L key, _descendIgnoreList key L) ignoreList keys.

(** A key that can be a component of a dotted path: it holds no dot and is
    not the wildcard marker. *)
Definition plainKey (k : string) : Prop := Spec.cutDot k = None ∧ k ≠ "*".

(** ** The import id of resourceRestAPIImport *)

(** The first part of [resourceRestAPIImport]: from the id given on the
    command line, the values set for ["path"] and for the id of the
    resource, or [None] for the error "invalid path to import". *)
Definition importPathAndId (input : string) : option (string * string) :=
  let hasTrailingSlash := strings.HasSuffix input "/" in
  let n :=
    if hasTrailingSlash
    then strings.LastIndex (strings.sliceTo (String.length input - 1) input) "/"
    else strings.LastIndex input "/" in
  if (n =? -1)%Z then None
  else
    let path := strings.sliceTo (Z.to_nat n) input in
    let id :=
      if hasTrailingSlash
      then strings.sliceTo (String.length input - 1 - (Z.to_nat n + 1))
             (strings.sliceFrom (Z.to_nat n + 1) input)
      else strings.sliceFrom (Z.to_nat n + 1) input in
    Some (path, id).

(** The bytes of a string. *)
Abbreviation bytes := String.list_ascii_of_string.

(** ** suppressDiffForIgnoredFields *)

(** [filterIgnoredFields] on a map that may be nil: [if data == nil { return
    nil }]. *)
Definition filterIgnoredFieldsNil (data : option (gmap string json))
    (ignoreList : list string) : option (gmap string json) :=
  match data with
  | None => None
  | Some fields => Some (filterIgnoredFields fields ignoreList)
  end.

(** [reflect.DeepEqual] on two maps that may be nil: a nil map is only equal
    to a nil map. *)
Definition DeepEqualMaps (x y : option (gmap string json)) : bool :=
  match x, y with
  | None, None => true
  | Some a, Some b => DeepEqual (JObj a) (JObj b)
  | _, _ => false
  end.

Section DiffSuppress.

(** [json.Unmarshal([]byte(text), &data)] for a nil map [data]: [None] when
    it returns an error, [Some None] when the map stays nil (the text is
    [null]), [Some (Some m)] when the text is an object. *)
Variable Unmarshal : string → option (option (gmap string json)).

(** [suppressDiffForIgnoredFields(k, old, new, d)], where [ignoreList] is
    what [getIgnoreList(d)] returns. *)
Definition suppressDiffForIgnoredFields (ignoreList : list string) (old new : string)
    : bool :=
  if String.eqb old "" || String.eqb old "{}" then false
  else
    match Unmarshal old with
    | None => false
    | Some oldData =>
        match Unmarshal new with
        | None => false
        | Some newData =>
            if Nat.ltb 0 (length ignoreList)
            then DeepEqualMaps (filterIgnoredFieldsNil oldData ignoreList)
                               (filterIgnoredFieldsNil newData ignoreList)
            else DeepEqualMaps oldData newData
        end
    end.

End DiffSuppress.

(** ** Sample texts *)

Module Texts.

(** The data of an object as the API returns it. *)
Definition apiData : gmap string json :=
  {[ "name" := JStr "x"; "version" := JNum 7;
     "owner" := JObj {[ "oid" := JStr "1"; "version" := JNum 3 ]} ]}.

(** The data of the same object before its owner changed. *)
Definition staleData : gmap string json :=
  {[ "name" := JStr "x"; "version" := JNum 6;
     "owner" := JObj {[ "oid" := JStr "2" ]} ]}.

(** A decoder that knows two texts by name: ["config"] holds [apiData],
    ["state"] holds it without the fields that ["*.version"] ignores. *)
Definition Unmarshal (text : string) : option (option (gmap string json)) :=
  if String.eqb text "config" then Some (Some apiData)
  else if String.eqb text "state"
       then Some (Some (filterIgnoredFields apiData ["*.version"]))
       else None.

End Texts.

(** * Properties *)

(** ** Strings *)

Section StringFacts.

Lemma HasPrefix_wildcard p :
  strings.HasPrefix p "*." = Spec.isWildcard p.
Proof.
  destruct p as [|c1 [|c2 p]]; simpl; try done.
  - by rewrite andb_false_r.
  - by destruct p; rewrite andb_true_r.
Qed.

Lemma isWildcard_spec p :
  Spec.isWildcard p = true ↔ p = "*." ++ strings.sliceFrom 2 p.
Proof.
  split.
  - destruct p as [|c1 [|c2 p]]; simpl; try done.
    intros [H1 H2]%andb_true_iff.
    apply Ascii.eqb_eq in H1 as ->. by apply Ascii.eqb_eq in H2 as ->.
  - by intros ->.
Qed.

Lemma isWildcard_app s : Spec.isWildcard ("*." ++ s) = true.
Proof. done. Qed.

Lemma String_eqb_eq (a b : string) : String.eqb a b = true ↔ a = b.
Proof. apply String.eqb_eq. Qed.

Lemma String_eqb_decide (a b : string) : String.eqb a b = bool_decide (a = b).
Proof.
  destruct (String.eqb a b) eqn:E.
  - apply String.eqb_eq in E. by rewrite bool_decide_eq_true_2.
  - apply String.eqb_neq in E. by rewrite bool_decide_eq_false_2.
Qed.

(** [Split] never returns the empty slice. *)
Lemma Split_cons s sep : ∃ piece pieces, strings.Split s sep = piece :: pieces.
Proof.
  induction s as [|c s [piece [pieces IH]]]; simpl; first by eauto.
  destruct (Ascii.eqb c sep); first by eauto.
  rewrite IH. eauto.
Qed.

(** The pieces of a pattern: the text before the first dot, then the
    pieces of the text after it. *)
Lemma Split_cutDot p :
  strings.Split p "." =
    match Spec.cutDot p with
    | None => [p]
    | Some (first, rest) => first :: strings.Split rest "."
    end.
Proof.
  induction p as [|c p IH]; simpl; first done.
  destruct (Ascii.eqb c "."); first done.
  rewrite IH. by destruct (Spec.cutDot p) as [[first rest]|].
Qed.

Lemma Join_cons e e' rest sep :
  strings.Join (e :: e' :: rest) sep = e ++ sep ++ strings.Join (e' :: rest) sep.
Proof. done. Qed.

Lemma Join_Split s : strings.Join (strings.Split s ".") "." = s.
Proof.
  induction s as [|c s IH]; first done.
  cbn [strings.Split].
  destruct (Split_cons s ".") as [piece [pieces Hs]]. rewrite Hs in IH |- *.
  destruct (Ascii.eqb c ".") eqn:E.
  - apply Ascii.eqb_eq in E as ->. by rewrite Join_cons, IH.
  - destruct pieces as [|piece' pieces].
    + simpl in *. by rewrite IH.
    + rewrite Join_cons in IH |- *. by rewrite <-IH.
Qed.

(** [cutDot] cuts at a dot, and the part before it has none. *)
Lemma cutDot_Some p first rest :
  Spec.cutDot p = Some (first, rest) →
  p = first ++ "." ++ rest ∧ Spec.cutDot first = None.
Proof.
  revert first. induction p as [|c p IH]; intros first; simpl; first done.
  destruct (Ascii.eqb c ".") eqn:E.
  - apply Ascii.eqb_eq in E as ->. by intros [= <- <-].
  - destruct (Spec.cutDot p) as [[f r]|]; last done.
    intros [= <- <-]. destruct (IH f eq_refl) as [-> Hf].
    split; first done. simpl. by rewrite E, Hf.
Qed.

Lemma cutDot_None p :
  Spec.cutDot p = None ↔ "."%char ∉ String.list_ascii_of_string p.
Proof.
  induction p as [|c p IH]; simpl.
  - split; [intros _; apply not_elem_of_nil | done].
  - rewrite not_elem_of_cons. destruct (Ascii.eqb c ".") eqn:E.
    + apply Ascii.eqb_eq in E as ->. split; [done | by intros [? _]].
    + apply Ascii.eqb_neq in E.
      destruct (Spec.cutDot p) as [[f r]|].
      * split; first done. intros [_ H]. by apply IH in H.
      * split; last done. intros _. split; [congruence | by apply IH].
Qed.

End StringFacts.

(** ** matchesIgnorePattern *)

Lemma matchesIgnorePattern_true fieldName ignoreList :
  matchesIgnorePattern fieldName ignoreList = true ↔
  fieldName ∈ ignoreList ∨ ("*." ++ fieldName) ∈ ignoreList.
Proof.
  induction ignoreList as [|pattern rest IH]; cbn [matchesIgnorePattern].
  - split; [done | intros [H|H]; by apply elem_of_nil in H].
  - rewrite !elem_of_cons, HasPrefix_wildcard.
    destruct (String.eqb pattern fieldName) eqn:E1.
    { apply String.eqb_eq in E1. split; [intros _ | done]. left; left. done. }
    apply String.eqb_neq in E1.
    destruct (Spec.isWildcard pattern &&
              String.eqb (strings.sliceFrom 2 pattern) fieldName) eqn:E2.
    { apply andb_true_iff in E2 as [E2 E3].
      apply isWildcard_spec in E2. apply String.eqb_eq in E3.
      split; [intros _ | done]. right; left. by rewrite <-E3. }
    rewrite IH. split.
    + intros [?|?]; [left|right]; by right.
    + intros [[?|?]|[Heq|?]]; [congruence | by left | | by right].
      exfalso. subst pattern. cbn in E2.
      by rewrite (proj2 (String.eqb_eq _ _) eq_refl) in E2.
Qed.

(** C7. [matchesIgnorePattern f L] returns true exactly when some pattern of
    [L] equals [f] verbatim, or some pattern of [L] is ["*."] followed by a
    suffix equal to [f]. The function is a total function of its two
    arguments. *)
Theorem matchesIgnorePattern_iff (f : string) (L : list string) :
  matchesIgnorePattern f L = true ↔
  ∃ pattern, pattern ∈ L ∧
    (pattern = f ∨ ∃ suffix, pattern = "*." ++ suffix ∧ suffix = f).
Proof.
  rewrite matchesIgnorePattern_true. split.
  - intros [H|H]; eexists; (split; [exact H|]); eauto.
  - intros [pattern [Hin [->|[suffix [-> ->]]]]]; eauto.
Qed.

(** Matching is monotone in the pattern list. *)
Lemma matchesIgnorePattern_mono f (P P' : list string) :
  P ⊆ P' → matchesIgnorePattern f P = true → matchesIgnorePattern f P' = true.
Proof. rewrite !matchesIgnorePattern_true. intros HP [H|H]; [left|right]; by apply HP. Qed.

(** ** _descendIgnoreList *)

Lemma descendStep_spec key new p :
  descendStep key new p = (new ++ option_list (Spec.descendPattern key p))%list.
Proof.
  unfold descendStep, Spec.descendPattern.
  rewrite HasPrefix_wildcard. destruct (Spec.isWildcard p); first done.
  rewrite Split_cutDot. destruct (Spec.cutDot p) as [[first rest]|]; simpl.
  - destruct (Split_cons rest ".") as [piece [pieces Hs]].
    pose proof (Join_Split rest) as HJ. rewrite Hs in HJ |- *.
    cbn [length Nat.eqb]. rewrite HJ, String_eqb_decide.
    destruct (decide (first = key)) as [Heq|Hne].
    + by rewrite bool_decide_eq_true_2.
    + rewrite bool_decide_eq_false_2 by done. simpl. by rewrite app_nil_r.
  - by rewrite app_nil_r.
Qed.

Lemma descendIgnoreList_spec key L :
  _descendIgnoreList key L = Spec.descend key L.
Proof.
  unfold _descendIgnoreList, Spec.descend.
  enough (∀ acc, foldl (descendStep key) acc L = (acc ++ omap (Spec.descendPattern key) L)%list)
    as H by apply H.
  induction L as [|p L IH]; intros acc; simpl.
  - by rewrite app_nil_r.
  - rewrite IH, descendStep_spec, <-app_assoc.
    by destruct (Spec.descendPattern key p).
Qed.

(** C8. [_descendIgnoreList k L] is [L] with every pattern treated by the
    four rules: a wildcard is kept, a pattern without a dot is dropped, a
    dotted path whose first component is [k] is replaced by the text after
    its first dot (its remaining components joined by dots), and any other
    dotted path is dropped. The result is never longer than [L]. *)
Theorem descendIgnoreList_rules (k : string) (L : list string) :
  _descendIgnoreList k L = Spec.descend k L ∧
  (length (_descendIgnoreList k L) ≤ length L)%nat.
Proof.
  split; first apply descendIgnoreList_spec.
  rewrite descendIgnoreList_spec. unfold Spec.descend.
  induction L as [|p L IH]; first done.
  change (omap (Spec.descendPattern k) (p :: L))
    with (match Spec.descendPattern k p with
          | Some q => q :: omap (Spec.descendPattern k) L
          | None => omap (Spec.descendPattern k) L
          end).
  destruct (Spec.descendPattern k p); cbn [length]; lia.
Qed.

Lemma elem_of_descendIgnoreList q key L :
  q ∈ _descendIgnoreList key L ↔ ∃ p, p ∈ L ∧ Spec.descendPattern key p = Some q.
Proof. rewrite descendIgnoreList_spec. unfold Spec.descend. apply list_elem_of_omap. Qed.

(** Descending is monotone in the pattern list. *)
Lemma descendIgnoreList_mono key (P P' : list string) :
  P ⊆ P' → _descendIgnoreList key P ⊆ _descendIgnoreList key P'.
Proof.
  intros HP q. rewrite !elem_of_descendIgnoreList.
  intros [p [Hin Hq]]. exists p. split; [by apply HP | done].
Qed.

(** ** Induction on values *)

Lemma jsize_lookup (m : gmap string json) k v :
  m !! k = Some v → jsize v < jsize (JObj m).
Proof.
  cbn [jsize]. revert k v.
  apply (map_fold_weak_ind
           (λ n (m : gmap string json), ∀ k v, m !! k = Some v → jsize v < S n)).
  - intros k v. by rewrite lookup_empty.
  - intros i x fields n Hi IH k v. rewrite lookup_insert.
    destruct (decide (i = k)) as [->|Hne].
    + intros [= ->]. lia.
    + intros Hk. specialize (IH k v Hk). lia.
Qed.

Lemma jsize_elem (l : list json) v : v ∈ l → jsize v < jsize (JArr l).
Proof.
  cbn [jsize]. induction 1 as [v l|v w l _ IH]; cbn [foldr]; lia.
Qed.

(** Structural induction through the maps and the slices. *)
Lemma json_nested_ind (P : json → Prop) :
  P JNull → (∀ b, P (JBool b)) → (∀ n, P (JNum n)) → (∀ s, P (JStr s)) →
  (∀ m : gmap string json, map_Forall (λ _ v, P v) m → P (JObj m)) →
  (∀ l, Forall P l → P (JArr l)) →
  ∀ v, P v.
Proof.
  intros Hnull Hbool Hnum Hstr Hobj Harr v.
  revert v.
  enough (∀ n v, jsize v < n → P v) as H by (intros v; apply (H (S (jsize v))); lia).
  induction n as [|n IHn]; intros v Hv; first lia.
  destruct v as [| | | |m|l]; auto.
  - apply Hobj. intros k v Hk. apply IHn.
    pose proof (jsize_lookup m k v Hk). lia.
  - apply Harr. apply Forall_forall. intros v Hin. apply IHn.
    pose proof (jsize_elem l v Hin). lia.
Qed.

(** ** The two loops of [getDelta] *)

Section Loops.

Context (self : json → gmap string json → list string → delta).
Context (actualResource : gmap string json) (ignoreList : list string).
Context (recordedResource : gmap string json).

Lemma recordedInv_fold recorded :
  recordedInv self actualResource ignoreList
    (map_fold (deltaRecorded self actualResource ignoreList) (Some (∅, false)) recorded)
    recorded.
Proof.
  apply (map_fold_weak_ind (recordedInv self actualResource ignoreList)); clear recorded.
  - repeat split.
    + intros k vR. by rewrite lookup_empty.
    + done.
    + intros (k & vR & v & Hk & _). by rewrite lookup_empty in Hk.
  - intros i x recorded acc Hi IH. unfold deltaRecorded.
    destruct acc as [[modified changed]|]; cbn.
    + destruct IH as (IH1 & IH2 & IH3).
      destruct (deltaKey self actualResource ignoreList i x) as [[v ch]|] eqn:Hkey; cbn.
      * repeat split.
        -- intros k vR. rewrite !lookup_insert.
           destruct (decide (i = k)) as [->|Hne].
           ++ intros [= <-]. eauto.
           ++ apply IH1.
        -- intros k. rewrite !lookup_insert.
           destruct (decide (i = k)); [done | apply IH2].
        -- intros [Hc|Hc]%orb_true_iff.
           ++ apply IH3 in Hc as (k & vR & v' & Hk & Hv).
              exists k, vR, v'. split; last done.
              rewrite lookup_insert_ne; [done | congruence].
           ++ subst ch. exists i, x, v. by rewrite lookup_insert_eq.
        -- intros (k & vR & v' & Hk & Hv). apply orb_true_iff.
           rewrite lookup_insert in Hk.
           destruct (decide (i = k)) as [->|Hne].
           ++ right. congruence.
           ++ left. apply IH3. eauto.
      * exists i, x. by rewrite lookup_insert_eq.
    + destruct IH as (k & vR & Hk & Hnone).
      exists k, vR. split; last done.
      rewrite lookup_insert_ne; [done | congruence].
Qed.

Lemma actualInv_fold start actual :
  actualInv ignoreList recordedResource start
    (map_fold (deltaActual recordedResource ignoreList) start actual) actual.
Proof.
  apply (map_fold_weak_ind (actualInv ignoreList recordedResource start)); clear actual.
  - split.
    + intros k. by rewrite lookup_empty.
    + split; first by left.
      intros [?|(k & vA & Hk & _)]; first done. by rewrite lookup_empty in Hk.
  - intros i x actual acc Hi [IH1 IH2]. unfold deltaActual. split.
    + intros k. rewrite lookup_insert.
      destruct (decide (i = k)) as [->|Hne].
      * specialize (IH1 k). rewrite Hi in IH1.
        destruct (bool_decide (is_Some (recordedResource !! k))); first done.
        destruct (matchesIgnorePattern k ignoreList); first done.
        cbn. by rewrite lookup_insert_eq.
      * destruct (bool_decide (is_Some (recordedResource !! i))); first apply IH1.
        destruct (matchesIgnorePattern i ignoreList); first apply IH1.
        cbn. rewrite lookup_insert_ne by done. apply IH1.
    + destruct (bool_decide (is_Some (recordedResource !! i))) eqn:Hrec.
      { rewrite IH2. apply bool_decide_eq_true in Hrec as [w Hw].
        split; (intros [?|(k & vA & Hk & Hr & Hm)]; [by left | right]).
        - exists k, vA. rewrite lookup_insert_ne; [done | congruence].
        - exists k, vA. rewrite lookup_insert in Hk.
          destruct (decide (i = k)); [congruence | done]. }
      apply bool_decide_eq_false in Hrec.
      assert (recordedResource !! i = None) as Hnone.
      { destruct (recordedResource !! i) eqn:E; [by destruct Hrec; eauto | done]. }
      destruct (matchesIgnorePattern i ignoreList) eqn:Hm.
      { rewrite IH2.
        split; (intros [?|(k & vA & Hk & Hr & Hm')]; [by left | right]).
        - exists k, vA. rewrite lookup_insert_ne; [done | congruence].
        - exists k, vA. rewrite lookup_insert in Hk.
          destruct (decide (i = k)); [congruence | done]. }
      cbn. split; last done. intros _. right.
      exists i, x. by rewrite lookup_insert_eq.
Qed.

End Loops.

(** ** getDelta, key by key *)

Lemma getDelta_unfold recorded actual ignoreList :
  getDelta recorded actual ignoreList =
    (acc ← map_fold (deltaRecorded getDelta_rec actual ignoreList)
                    (Some (∅, false)) recorded;
     Some (map_fold (deltaActual recorded ignoreList) acc actual)).
Proof. done. Qed.

Lemma getDelta_rec_obj recorded actual ignoreList :
  getDelta_rec (JObj recorded) actual ignoreList = getDelta recorded actual ignoreList.
Proof. done. Qed.

(** [getDelta] panics exactly when the body of its first loop panics for
    some key. *)
Lemma getDelta_None recorded actual ignoreList :
  getDelta recorded actual ignoreList = None ↔
  ∃ k vR, recorded !! k = Some vR ∧ keyDelta actual ignoreList k vR = None.
Proof.
  rewrite getDelta_unfold.
  pose proof (recordedInv_fold getDelta_rec actual ignoreList recorded) as Hinv.
  destruct (map_fold _ _ recorded) as [[modified changed]|]; cbn in *.
  - split; first done.
    intros (k & vR & Hk & Hnone). destruct Hinv as (H1 & _).
    destruct (H1 k vR Hk) as (v & ch & Hv & _). unfold keyDelta in Hnone. congruence.
  - split; [intros _; exact Hinv | done].
Qed.

(** The result of [getDelta], key by key. *)
Lemma getDelta_Some recorded actual ignoreList modified changed :
  getDelta recorded actual ignoreList = Some (modified, changed) →
  (∀ k vR, recorded !! k = Some vR →
     ∃ v ch, keyDelta actual ignoreList k vR = Some (v, ch) ∧ modified !! k = Some v) ∧
  (∀ k, recorded !! k = None →
     modified !! k = if matchesIgnorePattern k ignoreList then None else actual !! k) ∧
  (changed = true ↔
     (∃ k vR v, recorded !! k = Some vR ∧ keyDelta actual ignoreList k vR = Some (v, true)) ∨
     (∃ k vA, actual !! k = Some vA ∧ recorded !! k = None ∧
              matchesIgnorePattern k ignoreList = false)).
Proof.
  rewrite getDelta_unfold.
  pose proof (recordedInv_fold getDelta_rec actual ignoreList recorded) as Hinv.
  destruct (map_fold _ _ recorded) as [[modified1 changed1]|]; cbn in *; last done.
  destruct Hinv as (H1 & H2 & H3).
  pose proof (actualInv_fold ignoreList recorded (modified1, changed1) actual) as [A1 A2].
  intros [= Heq]. rewrite Heq in A1, A2. cbn in *. repeat split.
  - intros k vR Hk. destruct (H1 k vR Hk) as (v & ch & Hv & Hm).
    exists v, ch. split; first done. rewrite A1.
    rewrite bool_decide_eq_true_2 by eauto. by destruct (actual !! k).
  - intros k Hk. rewrite A1. rewrite bool_decide_eq_false_2.
    2: { rewrite Hk. by intros [? ?]. }
    rewrite (H2 k Hk). destruct (actual !! k); by destruct (matchesIgnorePattern _ _).
  - rewrite A2, H3. tauto.
  - rewrite A2, H3. tauto.
Qed.

(** [getDelta] returns as soon as the body of the first loop returns for
    every key. *)
Lemma getDelta_returns recorded actual ignoreList :
  (∀ k vR, recorded !! k = Some vR → is_Some (keyDelta actual ignoreList k vR)) →
  is_Some (getDelta recorded actual ignoreList).
Proof.
  intros Hall. destruct (getDelta recorded actual ignoreList) eqn:E; first by eauto.
  apply getDelta_None in E as (k & vR & Hk & Hnone).
  destruct (Hall k vR Hk) as [? ?]. congruence.
Qed.

(** The element loop, index by index. *)
Lemma deltaSlice_Some elem sliceRecorded sliceActual modifiedSlice changed :
  length sliceRecorded = length sliceActual →
  deltaSlice elem sliceRecorded sliceActual = Some (modifiedSlice, changed) →
  length modifiedSlice = length sliceRecorded ∧
  (∀ i r a, sliceRecorded !! i = Some r → sliceActual !! i = Some a →
     ∃ e ch, elem r a = Some (e, ch) ∧ modifiedSlice !! i = Some e) ∧
  (changed = true ↔
     ∃ i r a e, sliceRecorded !! i = Some r ∧ sliceActual !! i = Some a ∧
                elem r a = Some (e, true)).
Proof.
  revert sliceActual modifiedSlice changed.
  induction sliceRecorded as [|r0 rs IH]; intros [|a0 as_] ms c Hlen; cbn; try done.
  - intros [= <- <-]. repeat split; try done.
    intros (i & r & a & e & Hr & _). by rewrite lookup_nil in Hr.
  - destruct (elem r0 a0) as [[e0 c0]|] eqn:He; cbn; last done.
    destruct (deltaSlice elem rs as_) as [[es cs]|] eqn:Hrest; cbn; last done.
    intros [= <- <-]. cbn in Hlen.
    destruct (IH as_ es cs ltac:(lia) Hrest) as (IHlen & IHidx & IHch).
    repeat split.
    + cbn. lia.
    + intros [|i] r a; cbn.
      * intros [= <-] [= <-]. eauto.
      * apply IHidx.
    + intros [Hc|Hc]%orb_true_iff.
      * subst c0. exists 0, r0, a0, e0. done.
      * apply IHch in Hc as (i & r & a & e & Hr & Ha & He').
        exists (S i), r, a, e. done.
    + intros (i & r & a & e & Hr & Ha & He'). apply orb_true_iff.
      destruct i as [|i]; cbn in *.
      * left. congruence.
      * right. apply IHch. eauto 8.
Qed.

Lemma deltaSlice_None elem sliceRecorded sliceActual :
  length sliceRecorded = length sliceActual →
  deltaSlice elem sliceRecorded sliceActual = None ↔
  ∃ i r a, sliceRecorded !! i = Some r ∧ sliceActual !! i = Some a ∧ elem r a = None.
Proof.
  revert sliceActual.
  induction sliceRecorded as [|r0 rs IH]; intros [|a0 as_] Hlen; cbn in *; try done.
  - split; first done. intros (i & r & a & Hr & _). by rewrite lookup_nil in Hr.
  - specialize (IH as_ ltac:(lia)).
    destruct (elem r0 a0) as [[e0 c0]|] eqn:He; cbn.
    + destruct (deltaSlice elem rs as_) as [[es cs]|] eqn:Hrest; cbn.
      * split; first done. intros ([|i] & r & a & Hr & Ha & Hn); cbn in *.
        -- congruence.
        -- assert (Some (es, cs) = None) by (apply IH; by exists i, r, a). done.
      * split; last done. intros _.
        destruct (proj1 IH eq_refl) as (i & r & a & Hr & Ha & Hn).
        exists (S i), r, a. done.
    + split; last done. intros _. exists 0, r0, a0. done.
Qed.

(** ** DeepEqual is equality *)

Lemma map_fold_andb {A} (f : string → A → bool) (m : gmap string A) :
  map_fold (λ k v acc, acc && f k v) true m = true ↔
  ∀ k v, m !! k = Some v → f k v = true.
Proof.
  apply (map_fold_weak_ind
           (λ r (m : gmap string A), r = true ↔ ∀ k v, m !! k = Some v → f k v = true)).
  - split; [intros _ k v | done]. by rewrite lookup_empty.
  - intros i x m' r Hi IH. rewrite andb_true_iff, IH. split.
    + intros [Hall Hx] k v. rewrite lookup_insert.
      destruct (decide (i = k)) as [->|Hne]; [by intros [= <-] | apply Hall].
    + intros Hall. split.
      * intros k v Hk. apply Hall. rewrite lookup_insert_ne; [done | congruence].
      * apply Hall. by rewrite lookup_insert_eq.
Qed.

Lemma DeepEqual_eq x y : DeepEqual x y = true ↔ x = y.
Proof.
  revert y. induction x as [|a|a|a|m1 IH|l1 IH] using json_nested_ind;
    intros [|b|b|b|m2|l2]; cbn [DeepEqual]; try (split; congruence).
  - rewrite Bool.eqb_true_iff. split; congruence.
  - rewrite Z.eqb_eq. split; congruence.
  - rewrite String.eqb_eq. split; congruence.
  - rewrite andb_true_iff, Nat.eqb_eq, map_fold_andb. split.
    + intros [Hsize Hall]. f_equal. apply map_subseteq_size_eq; last lia.
      apply map_subseteq_spec. intros k v1 Hk. specialize (Hall k v1 Hk).
      destruct (m2 !! k) as [v2|]; last done.
      apply (IH k v1 Hk) in Hall. by subst.
    + intros [= <-]. split; first done.
      intros k v1 Hk. rewrite Hk. by apply (IH k v1 Hk).
  - revert l2. induction IH as [|a l1 Ha _ IHl]; intros [|b l2]; try (split; congruence).
    rewrite andb_true_iff, Ha, IHl. split; [intros [-> [= ->]]; done | intros [= -> ->]; done].
Qed.

Lemma DeepEqual_decide x y : DeepEqual x y = true ∨ DeepEqual x y = false.
Proof. destruct (DeepEqual x y); auto. Qed.

Lemma DeepEqual_refl x : DeepEqual x x = true.
Proof. by apply DeepEqual_eq. Qed.

Lemma DeepEqual_neq x y : DeepEqual x y = false ↔ x ≠ y.
Proof.
  rewrite <-DeepEqual_eq. destruct (DeepEqual x y); split; congruence.
Qed.

(** ** Induction on resources *)

(** To prove a property of every resource, one may assume it for the
    objects bound in the resource and for the objects that are elements of
    the slices bound in it. *)
Lemma resource_ind (Q : gmap string json → Prop) :
  (∀ R : gmap string json,
     (∀ k R', R !! k = Some (JObj R') → Q R') →
     (∀ k l R', R !! k = Some (JArr l) → JObj R' ∈ l → Q R') →
     Q R) →
  ∀ R, Q R.
Proof.
  intros Hstep R.
  enough (∀ v, match v with
               | JObj R => Q R
               | JArr l => ∀ R', JObj R' ∈ l → Q R'
               | _ => True
               end) as H by apply (H (JObj R)).
  induction v as [| | | |m IH|l IH] using json_nested_ind; try done.
  - apply Hstep.
    + intros k R' Hk. apply (IH k _ Hk).
    + intros k l R' Hk Hin. by apply (IH k _ Hk).
  - intros R' Hin. rewrite Forall_forall in IH. apply (IH _ Hin).
Qed.

(** ** Where getDelta returns *)

Lemma elemDelta_returns dl r a :
  r ≠ JNull →
  (∀ R' A', r = JObj R' → is_Some (getDelta R' A' dl)) →
  is_Some (elemDelta dl r a).
Proof.
  intros Hnil Hobj. unfold elemDelta, deltaElem.
  destruct r as [| | | |R'|]; try done;
    try (by destruct (negb (DeepEqual _ a)); eauto).
  destruct a as [| | | |A'|];
    try (by destruct (negb (DeepEqual _ _)); eauto).
  rewrite getDelta_rec_obj.
  destruct (Hobj R' A' eq_refl) as [[sub ch] ->]. cbn. destruct ch; eauto.
Qed.

Lemma keyDelta_returns A L k vR :
  (∀ R' A' L', vR = JObj R' → is_Some (getDelta R' A' L')) →
  (∀ l, vR = JArr l → ∀ r a, r ∈ l → is_Some (elemDelta (_descendIgnoreList k L) r a)) →
  is_Some (keyDelta A L k vR).
Proof.
  intros Hobj Harr. unfold keyDelta, deltaKey.
  destruct (matchesIgnorePattern k L); first by eauto.
  destruct vR as [|b|n|s|R'|l]; cbn zeta.
  - eauto.
  - destruct (default JNull (A !! k)); cbn; try destruct (negb _); eauto.
  - destruct (default JNull (A !! k)); cbn; try destruct (negb _); eauto.
  - destruct (default JNull (A !! k)); cbn; try destruct (negb _); eauto.
  - destruct (default JNull (A !! k)) as [| | | |A'|]; try (by eauto).
    rewrite getDelta_rec_obj.
    destruct (Hobj R' A' (_descendIgnoreList k L) eq_refl) as [[sub ch] ->].
    cbn. destruct ch; eauto.
  - destruct (default JNull (A !! k)) as [| | | | |lA];
      try (by destruct (negb (DeepEqual _ _)); eauto).
    destruct (Nat.eqb (length l) (length lA)) eqn:Hlen; cbn; last by eauto.
    apply Nat.eqb_eq in Hlen.
    destruct (deltaSlice _ l lA) as [[ms sc]|] eqn:Hslice; cbn.
    + destruct sc; eauto.
    + apply deltaSlice_None in Hslice as (i & r & a & Hr & Ha & Hn); last done.
      destruct (Harr l eq_refl r a) as [? Hsome].
      { apply list_elem_of_lookup. eauto. }
      unfold elemDelta in Hsome. congruence.
Qed.

(** [getDelta] returns on every recorded resource whose slices hold no
    nil element, whatever the actual resource and the ignore list. *)
Lemma getDelta_returns_nilFree R :
  nilFree (JObj R) → ∀ A L, is_Some (getDelta R A L).
Proof.
  induction R as [R IHobj IHarr] using resource_ind.
  intros Hfree A L. inversion Hfree as [| | | |? Hvals|]; subst.
  apply getDelta_returns. intros k vR Hk. apply keyDelta_returns.
  - intros R' A' L' ->. apply (IHobj k R' Hk). by apply (Hvals k).
  - intros l -> r a Hin. specialize (Hvals k _ Hk).
    inversion Hvals as [| | | | |? Helems]; subst.
    rewrite Forall_forall in Helems. destruct (Helems r Hin) as [Hnil Hr].
    apply elemDelta_returns; first done.
    intros R' A' ->. by apply (IHarr k l R' Hk Hin).
Qed.

(** A mismatch of kinds at a key is a change, not a failure. *)
Lemma keyDelta_kind_mismatch A L k vR vA :
  matchesIgnorePattern k L = false →
  A !! k = Some vA →
  vR ≠ JNull →
  match vR, vA with
  | JBool _, JBool _ | JNum _, JNum _ | JStr _, JStr _
  | JObj _, JObj _ | JArr _, JArr _ => False
  | _, _ => True
  end →
  keyDelta A L k vR = Some (vA, true).
Proof.
  intros Hm HA Hnil Hkind. unfold keyDelta, deltaKey. rewrite Hm, HA. cbn.
  destruct vR, vA; try done.
Qed.

(** C3 fails on the code. [matchesIgnorePattern], [_descendIgnoreList] and
    [filterIgnoredFields] are total, but [getDelta] is not: for the recorded
    resource [{"a":[null]}] and the same actual resource, the element loop
    calls [reflect.TypeOf(elemRecorded).Kind()] on the nil element and the
    call panics instead of returning. *)
Theorem getDelta_nil_element_panics :
  getDelta Samples.nilList Samples.nilList [] = None.
Proof. vm_compute. reflexivity. Qed.

(** ** Scoping of simple keys and wildcards *)

(** C2. For the recorded tree [{"metadata":"v1","outer":{"metadata":"v1"}}]
    and the actual tree [{"metadata":"v1","outer":{"metadata":"v2"}}],
    [getDelta] reports a change under the ignore list [["metadata"]] (the
    simple key does not reach the nested field) and reports no change under
    [["*.metadata"]] (the wildcard reaches every depth). *)
Theorem getDelta_scoping :
  snd <$> getDelta Samples.scopeRecorded Samples.scopeActual ["metadata"] = Some true ∧
  snd <$> getDelta Samples.scopeRecorded Samples.scopeActual ["*.metadata"] = Some false.
Proof. split; vm_compute; reflexivity. Qed.

(** ** Keys recorded as null *)

Lemma keyDelta_ignored actual ignoreList k vR :
  matchesIgnorePattern k ignoreList = true →
  keyDelta actual ignoreList k vR = Some (vR, false).
Proof. intros H. unfold keyDelta, deltaKey. by rewrite H. Qed.

Lemma keyDelta_null actual ignoreList k :
  matchesIgnorePattern k ignoreList = false →
  keyDelta actual ignoreList k JNull =
    Some (default JNull (actual !! k),
          bool_decide (is_Some (actual !! k)) && negb (isNil (default JNull (actual !! k)))).
Proof. intros H. unfold keyDelta, deltaKey. by rewrite H. Qed.

(** The body of the first loop reads [actualResource] at its own key only. *)
Lemma keyDelta_ext actual actual' ignoreList k vR :
  actual !! k = actual' !! k →
  keyDelta actual ignoreList k vR = keyDelta actual' ignoreList k vR.
Proof. intros H. unfold keyDelta, deltaKey. by rewrite H. Qed.

(** Removing from both resources a key that contributes no change leaves
    the rest of the result as it was. *)
Lemma getDelta_delete_unchanged recorded actual ignoreList k vR v modified changed :
  recorded !! k = Some vR →
  keyDelta actual ignoreList k vR = Some (v, false) →
  getDelta recorded actual ignoreList = Some (modified, changed) →
  getDelta (delete k recorded) (delete k actual) ignoreList =
    Some (delete k modified, changed).
Proof.
  intros Hk Hkey Hget.
  destruct (getDelta_Some _ _ _ _ _ Hget) as (H1 & H2 & H3).
  assert (∀ j w, j ≠ k →
            keyDelta (delete k actual) ignoreList j w = keyDelta actual ignoreList j w)
    as Hext.
  { intros j w Hne. apply keyDelta_ext. by rewrite lookup_delete_ne. }
  destruct (getDelta_returns (delete k recorded) (delete k actual) ignoreList)
    as [[modified' changed'] Hget'].
  { intros j w Hj. rewrite lookup_delete in Hj.
    destruct (decide (k = j)) as [->|Hne]; first done.
    rewrite Hext by done. destruct (H1 j w Hj) as (? & ? & -> & _). eauto. }
  rewrite Hget'.
  destruct (getDelta_Some _ _ _ _ _ Hget') as (H1' & H2' & H3').
  f_equal. f_equal.
  - apply map_eq. intros j. rewrite lookup_delete.
    destruct (decide (k = j)) as [<-|Hne].
    + rewrite H2' by apply lookup_delete_eq. rewrite lookup_delete_eq.
      by destruct (matchesIgnorePattern k ignoreList).
    + destruct (recorded !! j) as [w|] eqn:Hj.
      * destruct (H1 j w Hj) as (x & ch & Hx & ->).
        destruct (H1' j w) as (x' & ch' & Hx' & ->).
        { by rewrite lookup_delete_ne. }
        rewrite Hext in Hx' by done. congruence.
      * rewrite H2 by done. rewrite H2' by (by rewrite lookup_delete_ne).
        by rewrite lookup_delete_ne.
  - apply eq_true_iff_eq. rewrite H3, H3'. split.
    + intros [(j & w & x & Hj & Hx)|(j & vA & Hj & Hr & Hm)]; [left|right].
      * rewrite lookup_delete in Hj.
        destruct (decide (k = j)) as [->|Hne]; first done.
        rewrite Hext in Hx by done. eauto.
      * rewrite lookup_delete in Hj, Hr.
        destruct (decide (k = j)) as [->|Hne]; first done. eauto.
    + intros [(j & w & x & Hj & Hx)|(j & vA & Hj & Hr & Hm)]; [left|right].
      * assert (j ≠ k) as Hne by (intros ->; congruence).
        exists j, w, x. rewrite lookup_delete_ne by done.
        by rewrite Hext.
      * assert (j ≠ k) as Hne by (intros ->; congruence).
        exists j, vA. by rewrite !lookup_delete_ne.
Qed.

(** Where [getDelta] returns, a key recorded as null is treated as the
    specification says. Let [k] be a key that is not ignored and whose
    recorded value is null. [getDelta] returns at least whenever no recorded
    slice holds a nil element, and whenever it returns: if the actual
    resource lacks [k] or holds null for it, the key contributes no change
    (the flag is the one obtained without [k] on either side) and the merged
    result holds null at [k]; otherwise the change flag is set and the
    merged result holds the actual value. In particular
    [getDelta({"foo":"bar","baz":null}, {"foo":"bar"}, [])] reports no
    change. *)
Theorem getDelta_null_recorded :
  (∀ (R A : gmap string json) (L : list string) (k : string),
     R !! k = Some JNull →
     matchesIgnorePattern k L = false →
     (nilFree (JObj R) → is_Some (getDelta R A L)) ∧
     (A !! k = None ∨ A !! k = Some JNull →
        keyDelta A L k JNull = Some (JNull, false) ∧
        ∀ M c, getDelta R A L = Some (M, c) →
          M !! k = Some JNull ∧
          getDelta (delete k R) (delete k A) L = Some (delete k M, c)) ∧
     (∀ v, A !! k = Some v → v ≠ JNull →
        keyDelta A L k JNull = Some (v, true) ∧
        ∀ M c, getDelta R A L = Some (M, c) → c = true ∧ M !! k = Some v)) ∧
  snd <$> getDelta Samples.nullRecorded Samples.nullActual [] = Some false.
Proof.
  split; last (vm_compute; reflexivity).
  intros R A L k Hk Hm.
  pose proof (keyDelta_null A L k Hm) as Hkey.
  split; [|split].
  - intros Hfree. by apply getDelta_returns_nilFree.
  - intros HA.
    assert (keyDelta A L k JNull = Some (JNull, false)) as Hkey'.
    { rewrite Hkey. destruct HA as [->| ->]; cbn; [done|].
      by destruct (bool_decide _). }
    split; first done. intros M c Hget.
    destruct (getDelta_Some _ _ _ _ _ Hget) as (H1 & _ & _).
    destruct (H1 k JNull Hk) as (v & ch & Hv & HM).
    split; first congruence.
    by apply (getDelta_delete_unchanged R A L k JNull JNull).
  - intros w HA Hw.
    assert (keyDelta A L k JNull = Some (w, true)) as Hkey'.
    { rewrite Hkey, HA. cbn. by destruct w. }
    split; first done. intros M c Hget.
    destruct (getDelta_Some _ _ _ _ _ Hget) as (H1 & _ & H3).
    destruct (H1 k JNull Hk) as (v & ch & Hv & HM).
    split; last congruence.
    apply H3. left. eauto.
Qed.

(** The theorem at the resources of its last sentence, for the key ["baz"]. *)
Lemma getDelta_null_recorded_witness :
  (Samples.nullRecorded !! "baz" = Some JNull ∧
   matchesIgnorePattern "baz" [] = false ∧
   Samples.nullActual !! "baz" = None ∧
   getDelta Samples.nullRecorded Samples.nullActual [] =
     Some (Samples.nullRecorded, false)) ∧
  (Samples.nullRecorded !! "baz" = Some JNull ∧
   getDelta (delete "baz" Samples.nullRecorded) (delete "baz" Samples.nullActual) [] =
     Some (delete "baz" Samples.nullRecorded, false)).
Proof.
  assert (Samples.nullRecorded !! "baz" = Some JNull) as H1
    by (vm_compute; reflexivity).
  assert (matchesIgnorePattern "baz" [] = false) as H2 by reflexivity.
  assert (Samples.nullActual !! "baz" = None) as H3 by (vm_compute; reflexivity).
  assert (getDelta Samples.nullRecorded Samples.nullActual [] =
            Some (Samples.nullRecorded, false)) as H4
    by (vm_compute; reflexivity).
  split; first exact (conj H1 (conj H2 (conj H3 H4))).
  destruct (proj1 getDelta_null_recorded Samples.nullRecorded Samples.nullActual []
              "baz" H1 H2) as (_ & Hnull & _).
  destruct (Hnull (or_introl H3)) as [_ Hres].
  exact (Hres Samples.nullRecorded false H4).
Defined.

(** C4 fails on the code, by the defect of C3. In the recorded resource
    [{"baz":null,"a":[null]}] the key ["baz"] is null and not ignored, and
    the actual resource [{"a":[null]}] lacks it, so the call should report
    no change for ["baz"] and hold null for it in the merged result. The
    element loop panics on the nil element of ["a"] and the call returns
    nothing. On the example of the claim, which has no slice, the call
    reports no change. *)
Theorem getDelta_null_recorded_panics :
  Samples.nullNilRecorded !! "baz" = Some JNull ∧
  matchesIgnorePattern "baz" [] = false ∧
  Samples.nullNilActual !! "baz" = None ∧
  getDelta Samples.nullNilRecorded Samples.nullNilActual [] = None ∧
  snd <$> getDelta Samples.nullRecorded Samples.nullActual [] = Some false.
Proof. repeat split; vm_compute; reflexivity. Qed.

(** ** Slices *)

Lemma elemDelta_spec dl r a e ch :
  elemDelta dl r a = Some (e, ch) →
  elemMerged dl r a e ∧ (ch = true ↔ elemChanged dl r a).
Proof.
  assert (∀ r' : json,
            (if negb (DeepEqual r' a) then Some (a, true) else Some (r', false))
              = Some (e, ch) →
            ((r' = a → e = r') ∧ (r' ≠ a → e = a)) ∧ (ch = true ↔ r' ≠ a)) as Hleaf.
  { intros r'. destruct (DeepEqual r' a) eqn:E; cbn; intros [= <- <-].
    - apply DeepEqual_eq in E. repeat split; try done; intros; congruence.
    - apply DeepEqual_neq in E. repeat split; try done; intros; congruence. }
  unfold elemDelta, deltaElem, elemChanged, elemMerged.
  destruct r as [| | | |mr|]; try done; try apply Hleaf.
  destruct a as [| | | |ma|]; try apply Hleaf.
  rewrite getDelta_rec_obj.
  destruct (getDelta mr ma dl) as [[sub hc]|]; cbn; last done.
  destruct hc; intros [= <- <-].
  - split; [by exists sub, true | split; eauto].
  - split; [by exists sub, false | split; [done | by intros [? ?]]].
Qed.

(** C5, as stated, fails: the key ["items"] is not ignored, both values are
    slices of length one, and their elements differ, yet [getDelta] under
    the ignore list [["*.id"]] reports no change. *)
Lemma getDelta_slice_difference_ignored :
  matchesIgnorePattern "items" ["*.id"] = false ∧
  Samples.itemsRecorded !! "items"
    = Some (JArr [JObj {[ "id" := JStr "1"; "name" := JStr "a" ]}]) ∧
  Samples.itemsActual !! "items"
    = Some (JArr [JObj {[ "id" := JStr "10"; "name" := JStr "a" ]}]) ∧
  JObj {[ "id" := JStr "1"; "name" := JStr "a" ]}
    ≠ JObj {[ "id" := JStr "10"; "name" := JStr "a" ]} ∧
  getDelta Samples.itemsRecorded Samples.itemsActual ["*.id"]
    = Some (Samples.itemsRecorded, false).
Proof.
  repeat split; try (vm_compute; reflexivity).
  apply DeepEqual_neq. vm_compute. reflexivity.
Qed.

(** C5, amended. Let [k] be a key that is not ignored and that is bound to
    a slice on both sides. [getDelta] returns at least whenever no recorded
    slice holds a nil element, and whenever it returns: if the lengths
    differ, the change flag is set and the merged resource holds the actual
    slice. If they are equal, the elements are compared index by index, two
    objects by the recursive call under the descended ignore list and any
    other pair by equality; the merged slice holds, per index, the recorded
    element where no change is found, the recursive merge for a changed pair
    of objects and the actual element for any other changed pair. If a
    change is found at some index the change flag is set and the merged
    resource holds the merged slice; otherwise the key contributes no change
    and the merged resource holds the recorded slice. *)
Theorem getDelta_slices (R A : gmap string json) (L : list string) (k : string)
    (lR lA : list json) :
  R !! k = Some (JArr lR) →
  A !! k = Some (JArr lA) →
  matchesIgnorePattern k L = false →
  (nilFree (JObj R) → is_Some (getDelta R A L)) ∧
  ∀ M c, getDelta R A L = Some (M, c) →
    (length lR ≠ length lA → c = true ∧ M !! k = Some (JArr lA)) ∧
    (length lR = length lA →
       ∃ lM, length lM = length lR ∧
         (∀ i r a, lR !! i = Some r → lA !! i = Some a →
            ∃ e, lM !! i = Some e ∧ elemMerged (_descendIgnoreList k L) r a e) ∧
         ((∃ i r a, lR !! i = Some r ∧ lA !! i = Some a ∧
                    elemChanged (_descendIgnoreList k L) r a) →
            c = true ∧ M !! k = Some (JArr lM)) ∧
         (¬ (∃ i r a, lR !! i = Some r ∧ lA !! i = Some a ∧
                      elemChanged (_descendIgnoreList k L) r a) →
            keyDelta A L k (JArr lR) = Some (JArr lR, false) ∧
            M !! k = Some (JArr lR))).
Proof.
  intros HR HA Hm.
  split; first by (intros Hfree; apply getDelta_returns_nilFree).
  intros M c Hget.
  destruct (getDelta_Some _ _ _ _ _ Hget) as (H1 & _ & H3).
  destruct (H1 k _ HR) as (v & ch & Hkey & HM).
  pose proof Hkey as Hkey'.
  unfold keyDelta, deltaKey in Hkey'. rewrite Hm, HA in Hkey'. cbn in Hkey'.
  split.
  - intros Hlen. apply Nat.eqb_neq in Hlen. rewrite Hlen in Hkey'. cbn in Hkey'.
    injection Hkey' as <- <-. split; last done.
    apply H3. left. eauto.
  - intros Hlen. rewrite (proj2 (Nat.eqb_eq _ _) Hlen) in Hkey'. cbn [negb] in Hkey'.
    destruct (deltaSlice (deltaElem getDelta_rec (_descendIgnoreList k L)) lR lA)
      as [[ms sc]|] eqn:Hslice; cbn in Hkey'; last done.
    destruct (deltaSlice_Some _ _ _ _ _ Hlen Hslice) as (Hms & Hidx & Hsc).
    exists ms. split; first done. split; [|split].
    + intros i r a Hr Ha. destruct (Hidx i r a Hr Ha) as (e & ch' & He & Hi).
      exists e. split; first done. by apply (elemDelta_spec _ _ _ _ ch').
    + intros (i & r & a & Hr & Ha & Hch).
      assert (sc = true) as ->.
      { apply Hsc. destruct (Hidx i r a Hr Ha) as (e & ch' & He & _).
        exists i, r, a, e. repeat split; try done.
        destruct (elemDelta_spec _ _ _ _ _ He) as [_ Hiff].
        apply Hiff in Hch. by subst ch'. }
      injection Hkey' as <- <-. split; last done.
      apply H3. left. eauto.
    + intros Hnone.
      assert (sc = false) as ->.
      { destruct sc; last done. exfalso. apply Hnone.
        destruct (proj1 Hsc eq_refl) as (i & r & a & e & Hr & Ha & He).
        exists i, r, a. repeat split; try done.
        by apply (elemDelta_spec _ _ _ _ _ He). }
      injection Hkey' as <- <-. done.
Qed.

Lemma getDelta_slices_witness :
  ∃ lM, length lM = 3 ∧
    (∀ i r a,
       [JStr "foo"; JObj {[ "val" := JStr "x" ]}; JStr "bar"] !! i = Some r →
       [JStr "foo"; JObj {[ "val" := JStr "Y" ]}; JStr "BAR"] !! i = Some a →
       ∃ e, lM !! i = Some e ∧ elemMerged (_descendIgnoreList "list" []) r a e) ∧
    ((∃ i r a,
        [JStr "foo"; JObj {[ "val" := JStr "x" ]}; JStr "bar"] !! i = Some r ∧
        [JStr "foo"; JObj {[ "val" := JStr "Y" ]}; JStr "BAR"] !! i = Some a ∧
        elemChanged (_descendIgnoreList "list" []) r a) →
     true = true ∧ Samples.listMerged !! "list" = Some (JArr lM)).
Proof.
  destruct (getDelta_slices Samples.listRecorded Samples.listActual [] "list"
              [JStr "foo"; JObj {[ "val" := JStr "x" ]}; JStr "bar"]
              [JStr "foo"; JObj {[ "val" := JStr "Y" ]}; JStr "BAR"])
    as [_ Hres].
  - vm_compute. reflexivity.
  - vm_compute. reflexivity.
  - reflexivity.
  - destruct (Hres Samples.listMerged true) as [_ H].
    { vm_compute. reflexivity. }
    destruct (H eq_refl) as (lM & Hlen & Hidx & Hch & _).
    exists lM. split; [exact Hlen | split; [exact Hidx | exact Hch]].
Defined.

(** ** The keys of the merged resource *)

(** Where [getDelta] returns, the keys of the merged resource are those
    the specification names. [getDelta(R, A, L)] returns at least whenever
    no slice of [R] holds a nil element, and the keys of the merged resource
    that it returns
    are the keys of [R] together with the keys of [A] that are absent from
    [R] and match no ignore pattern at this level. So every key of [R] is a
    key of the merged resource, and a key of [A] outside [R] that matches an
    ignore pattern is not. *)
Theorem getDelta_keys (R A : gmap string json) (L : list string) :
  (nilFree (JObj R) → is_Some (getDelta R A L)) ∧
  ∀ M c, getDelta R A L = Some (M, c) →
    dom M = dom R ∪ filter (λ k, matchesIgnorePattern k L = false) (dom A ∖ dom R) ∧
    dom R ⊆ dom M ∧
    (∀ k, k ∈ dom A → k ∉ dom R → matchesIgnorePattern k L = true → k ∉ dom M).
Proof.
  split; first by (intros Hfree; apply getDelta_returns_nilFree).
  intros M c Hget. destruct (getDelta_Some _ _ _ _ _ Hget) as (H1 & H2 & _).
  assert (dom M = dom R ∪ filter (λ k, matchesIgnorePattern k L = false) (dom A ∖ dom R))
    as Hdom.
  { apply set_eq. intros j.
    rewrite elem_of_union, elem_of_filter, elem_of_difference, !elem_of_dom.
    destruct (R !! j) as [w|] eqn:Hj.
    - destruct (H1 j w Hj) as (x & ch & _ & ->). split; eauto.
    - rewrite (H2 j Hj). destruct (matchesIgnorePattern j L) eqn:Hm.
      + split; [by intros [? ?] | intros [[? ?]|[? _]]; done].
      + split.
        * intros HA. right. split; first done. split; first done. by intros [? ?].
        * intros [[? ?]|(_ & HA & _)]; done. }
  split; first done. split.
  - rewrite Hdom. apply union_subseteq_l.
  - intros k _ HR Hm. rewrite Hdom, elem_of_union, elem_of_filter.
    intros [?|[? _]]; [done | congruence].
Qed.

Lemma getDelta_keys_witness :
  dom Samples.keysMerged =
    dom Samples.keysRecorded ∪
    filter (λ k, matchesIgnorePattern k ["c"] = false)
           (dom Samples.keysActual ∖ dom Samples.keysRecorded) ∧
  dom Samples.keysRecorded ⊆ dom Samples.keysMerged ∧
  (∀ k, k ∈ dom Samples.keysActual → k ∉ dom Samples.keysRecorded →
        matchesIgnorePattern k ["c"] = true → k ∉ dom Samples.keysMerged).
Proof.
  apply (proj2 (getDelta_keys Samples.keysRecorded Samples.keysActual ["c"])
           Samples.keysMerged true).
  vm_compute. reflexivity.
Defined.

(** C10 fails on the code, by the defect of C3. The recorded resource
    [{"a":[null],"b":1}] has the keys ["a"] and ["b"], which the merged
    resource of [getDelta] against [{"a":[null],"b":2}] should both hold.
    The element loop panics on the nil element of ["a"] and no merged
    resource is returned. *)
Theorem getDelta_keys_panics :
  is_Some (Samples.nilListRecorded !! "a") ∧
  is_Some (Samples.nilListRecorded !! "b") ∧
  getDelta Samples.nilListRecorded Samples.nilListActual [] = None.
Proof.
  split; [|split].
  - exists (JArr [JNull]). vm_compute. reflexivity.
  - exists (JNum 1). vm_compute. reflexivity.
  - vm_compute. reflexivity.
Qed.

(** ** Adding ignore patterns *)

Lemma matchesIgnorePattern_false_mono f (P P' : list string) :
  P ⊆ P' → matchesIgnorePattern f P' = false → matchesIgnorePattern f P = false.
Proof.
  intros HP H'. destruct (matchesIgnorePattern f P) eqn:E; last done.
  apply (matchesIgnorePattern_mono f P P' HP) in E. congruence.
Qed.

Lemma elemDelta_mono (P P' : list string) r a e' e ch :
  (∀ R', r = JObj R' → changeMonotone R') →
  P ⊆ P' →
  elemDelta P' r a = Some (e', true) →
  elemDelta P r a = Some (e, ch) →
  ch = true.
Proof.
  intros IH HP. unfold elemDelta, deltaElem.
  destruct r as [| | | |R'|]; try done;
    try (by destruct (negb (DeepEqual _ a)); intros [= _] [= _ <-]).
  destruct a as [| | | |A'|];
    try (by destruct (negb (DeepEqual _ _)); intros [= _] [= _ <-]).
  rewrite !getDelta_rec_obj.
  destruct (getDelta R' A' P') as [[sub' hc']|] eqn:H';
    destruct (getDelta R' A' P) as [[sub hc]|] eqn:H; cbn; try done.
  destruct hc'; last done. intros _.
  rewrite (IH R' eq_refl A' P P' _ _ _ HP H' H). by intros [= _ <-].
Qed.

Lemma keyDelta_mono A (P P' : list string) k vR v' v ch :
  (∀ R', vR = JObj R' → changeMonotone R') →
  (∀ l R', vR = JArr l → JObj R' ∈ l → changeMonotone R') →
  P ⊆ P' →
  keyDelta A P' k vR = Some (v', true) →
  keyDelta A P k vR = Some (v, ch) →
  ch = true.
Proof.
  intros IHobj IHarr HP. unfold keyDelta, deltaKey.
  destruct (matchesIgnorePattern k P') eqn:Hm'; first done.
  rewrite (matchesIgnorePattern_false_mono k P P' HP Hm').
  pose proof (descendIgnoreList_mono k P P' HP) as Hdl.
  destruct vR as [|b|n|s|R'|l]; cbn zeta.
  - by intros [= _ ->] [= _ <-].
  - destruct (ifaceEq _ _) as [same|]; cbn; last done.
    by destruct (negb same); intros [= _] [= _ <-].
  - destruct (ifaceEq _ _) as [same|]; cbn; last done.
    by destruct (negb same); intros [= _] [= _ <-].
  - destruct (ifaceEq _ _) as [same|]; cbn; last done.
    by destruct (negb same); intros [= _] [= _ <-].
  - destruct (default JNull (A !! k)) as [| | | |A'|];
      try (by intros _ [= _ <-]).
    rewrite !getDelta_rec_obj.
    destruct (getDelta R' A' (_descendIgnoreList k P')) as [[sub' hc']|] eqn:H';
      destruct (getDelta R' A' (_descendIgnoreList k P)) as [[sub hc]|] eqn:H;
      cbn; try done.
    destruct hc'; last done. intros _.
    rewrite (IHobj R' eq_refl A' _ _ _ _ _ Hdl H' H). by intros [= _ <-].
  - destruct (default JNull (A !! k)) as [| | | | |lA];
      try (by destruct (negb (DeepEqual _ _)); intros [= _] [= _ <-]).
    destruct (Nat.eqb (length l) (length lA)) eqn:Hlen; cbn [negb];
      last by intros _ [= _ <-].
    apply Nat.eqb_eq in Hlen.
    destruct (deltaSlice (deltaElem getDelta_rec (_descendIgnoreList k P')) l lA)
      as [[ms' sc']|] eqn:H';
      destruct (deltaSlice (deltaElem getDelta_rec (_descendIgnoreList k P)) l lA)
      as [[ms sc]|] eqn:H; cbn; try done.
    destruct sc'; last done. intros _.
    destruct (deltaSlice_Some _ _ _ _ _ Hlen H') as (_ & _ & Hch').
    destruct (deltaSlice_Some _ _ _ _ _ Hlen H) as (_ & Hidx & Hch).
    destruct (proj1 Hch' eq_refl) as (i & r & a & e' & Hr & Ha & He').
    destruct (Hidx i r a Hr Ha) as (e & ch0 & He & _).
    assert (ch0 = true) as ->.
    { eapply (elemDelta_mono _ _ r a); [|exact Hdl|exact He'|exact He].
      intros R' ->. apply (IHarr l R' eq_refl). apply list_elem_of_lookup. eauto. }
    assert (sc = true) as -> by (apply Hch; eauto 8).
    by intros [= _ <-].
Qed.

(** Whenever both calls return, a change reported under the longer ignore
    list is also reported under the shorter one. *)
Lemma getDelta_changed_mono R : changeMonotone R.
Proof.
  induction R as [R IHobj IHarr] using resource_ind.
  intros A P P' M' M c HP H' H.
  destruct (getDelta_Some _ _ _ _ _ H') as (H1' & _ & H3').
  destruct (getDelta_Some _ _ _ _ _ H) as (H1 & _ & H3).
  apply H3. destruct (proj1 H3' eq_refl) as [(k & vR & v' & Hk & Hv')|(k & vA & HA & HR & Hm)].
  - left. destruct (H1 k vR Hk) as (v & ch & Hv & _).
    exists k, vR, v. split; first done.
    rewrite Hv. do 2 f_equal.
    eapply (keyDelta_mono A P P' k vR); [| |exact HP|exact Hv'|exact Hv].
    + intros R' ->. by apply (IHobj k).
    + intros l R' -> Hin. by apply (IHarr k l).
  - right. exists k, vA. split; first done. split; first done.
    by apply (matchesIgnorePattern_false_mono k P P').
Qed.

(** C9 fails on the code for the same reason. The change in ["b"] is
    reported under the ignore list [["a"]], which hides the slice with the
    nil element; under the shorter list [[]] the call panics and reports
    nothing. *)
Theorem getDelta_fewer_patterns_panics :
  ([] : list string) ⊆ ["a"] ∧
  snd <$> getDelta Samples.nilListRecorded Samples.nilListActual ["a"] = Some true ∧
  getDelta Samples.nilListRecorded Samples.nilListActual [] = None.
Proof.
  split; first by intros x Hx; apply elem_of_nil in Hx.
  split; vm_compute; reflexivity.
Qed.

(** ** The operations of patchMidpointObject *)

(** C1, as stated, fails: for the desired role [{"name":"x","priority":5}]
    and the role [{"name":"x","priority":3,"@metadata":{"ts":1}}] read from
    the API, under the ignore list [["*.metadata"]], the operations are not
    the single replacement of ["priority"]: a deletion of ["@metadata"] is
    sent as well. *)
Lemma patch_role_not_only_replace :
  patchMidpointObject Samples.roleDesired Samples.roleApi ["*.metadata"] "oid"
    ≠ [ItemDelta "replace" "priority" (Some (JNum 5))] ∧
  ItemDelta "delete" "@metadata" None
    ∈ patchMidpointObject Samples.roleDesired Samples.roleApi ["*.metadata"] "oid".
Proof.
  split.
  - vm_compute. intros H. discriminate H.
  - vm_compute. apply list_elem_of_further, list_elem_of_here.
Qed.

(** C1, amended. With those inputs [patchMidpointObject] sends two
    operations, the replacement of ["priority"] by 5 and then the deletion
    of ["@metadata"], which the pattern ["*.metadata"] does not match; no
    addition is sent. Under the ignore list [["*.@metadata"]] the replacement
    is the only operation. *)
Theorem patch_role_operations :
  patchMidpointObject Samples.roleDesired Samples.roleApi ["*.metadata"] "oid" =
    [ItemDelta "replace" "priority" (Some (JNum 5));
     ItemDelta "delete" "@metadata" None] ∧
  matchesIgnorePattern "@metadata" ["*.metadata"] = false ∧
  patchMidpointObject Samples.roleDesired Samples.roleApi ["*.@metadata"] "oid" =
    [ItemDelta "replace" "priority" (Some (JNum 5))].
Proof. repeat split; vm_compute; reflexivity. Qed.

(** A map of length one with a binding is the singleton of that binding. *)
Lemma size_one_singleton (m : gmap string json) k v :
  size m = 1 → m !! k = Some v → m = {[ k := v ]}.
Proof.
  intros Hsize Hk.
  assert (delete k m = ∅) as Hempty.
  { apply map_size_empty_iff. rewrite map_size_delete, Hk, Hsize. done. }
  by rewrite <-(insert_delete_id m k v Hk), Hempty, insert_empty.
Qed.

Lemma singleKey_singleton k v : singleKey {[ k := v ]} = k.
Proof. unfold singleKey. by rewrite map_fold_singleton. Qed.

Lemma unwrap_same_key k d a :
  unwrap {[ k := JObj d ]} {[ k := JObj a ]} = (d, a).
Proof.
  unfold unwrap. rewrite !map_size_singleton, !singleKey_singleton.
  cbn [Nat.eqb andb]. rewrite (proj2 (String.eqb_eq k k) eq_refl).
  by rewrite !lookup_singleton_eq.
Qed.

Lemma unwrap_other_key k1 k2 v1 v2 :
  k1 ≠ k2 → unwrap {[ k1 := v1 ]} {[ k2 := v2 ]} = ({[ k1 := v1 ]}, {[ k2 := v2 ]}).
Proof.
  intros Hne. unfold unwrap. rewrite !map_size_singleton, !singleKey_singleton.
  cbn [Nat.eqb andb]. by rewrite (proj2 (String.eqb_neq k1 k2) Hne).
Qed.

(** Without a common wrapper key, nothing is unwrapped. *)
Lemma patch_keeps_distinct_wrappers k1 k2 v1 v2 L id :
  k1 ≠ k2 →
  patchMidpointObject {[ k1 := v1 ]} {[ k2 := v2 ]} L id =
    patchOperations {[ k1 := v1 ]} {[ k2 := v2 ]} L id.
Proof. intros Hne. unfold patchMidpointObject. by rewrite unwrap_other_key. Qed.

(** C6, as stated, fails: the data [{"a":{"x":1}}] and the API data
    [{"b":{"x":1}}] each have one top-level key whose value is an object,
    and the operations are not those of the two inner objects (there are
    none for them): the wrapper ["a"] is added and the wrapper ["b"]
    deleted. *)
Lemma patch_distinct_wrappers_not_unwrapped :
  size Samples.wrappedA = 1 ∧ size Samples.wrappedB = 1 ∧
  Samples.wrappedA !! "a" = Some (JObj {[ "x" := JNum 1 ]}) ∧
  Samples.wrappedB !! "b" = Some (JObj {[ "x" := JNum 1 ]}) ∧
  patchMidpointObject Samples.wrappedA Samples.wrappedB [] "oid" ≠
    patchOperations {[ "x" := JNum 1 ]} {[ "x" := JNum 1 ]} [] "oid" ∧
  patchMidpointObject Samples.wrappedA Samples.wrappedB [] "oid" =
    [ItemDelta "add" "a" (Some (JObj {[ "x" := JNum 1 ]}));
     ItemDelta "delete" "b" None].
Proof.
  repeat split; try (vm_compute; reflexivity).
  vm_compute. intros H. discriminate H.
Qed.

(** C6, amended. When the data and the API data each have exactly one
    top-level key, that key is the same on both sides, and both values are
    objects, [patchMidpointObject] sends the operations of the two inner
    objects. When the two keys differ, nothing is unwrapped and the
    operations are those of the outer objects. *)
Theorem patch_unwraps_common_wrapper (data apiData : gmap string json)
    (k k' : string) (d a : gmap string json) (L : list string) (id : string) :
  size data = 1 → size apiData = 1 →
  data !! k = Some (JObj d) → apiData !! k' = Some (JObj a) →
  patchMidpointObject data apiData L id =
    if decide (k = k') then patchOperations d a L id
    else patchOperations data apiData L id.
Proof.
  intros Hd Ha Hkd Hka.
  rewrite (size_one_singleton data k _ Hd Hkd), (size_one_singleton apiData k' _ Ha Hka).
  destruct (decide (k = k')) as [<-|Hne].
  - unfold patchMidpointObject. by rewrite unwrap_same_key.
  - by apply patch_keeps_distinct_wrappers.
Qed.

Lemma patch_unwraps_common_wrapper_witness :
  patchMidpointObject Samples.roleDesired Samples.roleApi ["*.metadata"] "oid" =
    if decide ("role" = "role")
    then patchOperations {[ "name" := JStr "x"; "priority" := JNum 5 ]}
           {[ "name" := JStr "x"; "priority" := JNum 3;
              "@metadata" := JObj {[ "ts" := JNum 1 ]} ]} ["*.metadata"] "oid"
    else patchOperations Samples.roleDesired Samples.roleApi ["*.metadata"] "oid".
Proof.
  apply (patch_unwraps_common_wrapper Samples.roleDesired Samples.roleApi "role" "role");
    vm_compute; reflexivity.
Defined.

(** ** filterIgnoredFields, key by key *)

Lemma filterKey_eq L k v (result : gmap string json) :
  filterKey filterIgnoredFields_rec L k v result =
    if matchesIgnorePattern k L then result else <[k := filterValue L k v]> result.
Proof. unfold filterKey, filterValue. by destruct v. Qed.

Lemma filterIgnoredFields_lookup (data : gmap string json) L k :
  filterIgnoredFields data L !! k =
    if matchesIgnorePattern k L then None else filterValue L k <$> data !! k.
Proof.
  unfold filterIgnoredFields. cbn [filterIgnoredFields_rec].
  apply (map_fold_weak_ind
           (λ (r m : gmap string json),
              r !! k = if matchesIgnorePattern k L then None
                       else filterValue L k <$> m !! k)).
  - rewrite !lookup_empty. by destruct (matchesIgnorePattern k L).
  - intros i x m r Hi IH. rewrite filterKey_eq.
    destruct (decide (i = k)) as [->|Hne].
    + destruct (matchesIgnorePattern k L) eqn:Hm; first done.
      by rewrite !lookup_insert_eq.
    + rewrite (lookup_insert_ne m) by done.
      destruct (matchesIgnorePattern i L); first done.
      by rewrite lookup_insert_ne.
Qed.

(** X1. The keys that [filterIgnoredFields] keeps are the keys of the resource
    that the ignore list does not match. *)
Theorem filterIgnoredFields_dom (data : gmap string json) (L : list string) :
  dom (filterIgnoredFields data L) =
    filter (λ k, matchesIgnorePattern k L = false) (dom data).
Proof.
  apply set_eq. intros k.
  rewrite elem_of_filter, !elem_of_dom, filterIgnoredFields_lookup.
  destruct (matchesIgnorePattern k L).
  - split; [by intros [? ?] | by intros [? _]].
  - rewrite fmap_is_Some. split; [done | by intros [_ ?]].
Qed.

Lemma filterElem_obj dl (m : gmap string json) :
  filterElem filterIgnoredFields_rec dl (JObj m) = JObj (filterIgnoredFields m dl).
Proof. done. Qed.

Lemma descendIgnoreList_nil k : _descendIgnoreList k [] = [].
Proof. done. Qed.

(** With nothing to ignore [filterIgnoredFields] copies the resource. *)
Lemma filterIgnoredFields_nil (data : gmap string json) :
  filterIgnoredFields data [] = data.
Proof.
  induction data as [data IHobj IHarr] using resource_ind.
  apply map_eq. intros k. rewrite filterIgnoredFields_lookup. cbn [matchesIgnorePattern].
  destruct (data !! k) as [v|] eqn:Hk; last done. cbn. f_equal.
  destruct v as [| | | |m|l]; try done; cbn [filterValue]; rewrite descendIgnoreList_nil.
  - by rewrite (IHobj k m Hk).
  - f_equal. rewrite <-(list_fmap_id l) at 2. apply list_fmap_ext.
    intros i e Hi. destruct e as [| | | |m|]; try done.
    rewrite filterElem_obj. unfold id. f_equal. apply (IHarr k l m Hk).
    apply list_elem_of_lookup. eauto.
Qed.

(** Filtering twice is filtering once. *)
Lemma filterIgnoredFields_idemp (data : gmap string json) :
  ∀ L, filterIgnoredFields (filterIgnoredFields data L) L = filterIgnoredFields data L.
Proof.
  induction data as [data IHobj IHarr] using resource_ind. intros L.
  apply map_eq. intros k. rewrite !filterIgnoredFields_lookup.
  destruct (matchesIgnorePattern k L); first done.
  destruct (data !! k) as [v|] eqn:Hk; last done. cbn. f_equal.
  destruct v as [| | | |m|l]; try done; cbn [filterValue].
  - by rewrite (IHobj k m Hk).
  - f_equal. rewrite <-list_fmap_compose. apply list_fmap_ext.
    intros i e Hi. cbn. destruct e as [| | | |m|]; try done.
    rewrite !filterElem_obj. f_equal. apply (IHarr k l m Hk).
    apply list_elem_of_lookup. eauto.
Qed.

Lemma wildcard_descends f k (L : list string) :
  ("*." +:+ f) ∈ L → ("*." +:+ f) ∈ _descendIgnoreList k L.
Proof.
  intros Hin. apply elem_of_descendIgnoreList. exists ("*." +:+ f). split; first done.
  unfold Spec.descendPattern. by rewrite isWildcard_app.
Qed.

(** A field ignored by a wildcard is nowhere in the filtered resource. *)
Lemma filterIgnoredFields_wildcard f (data : gmap string json) :
  ∀ L, ("*." +:+ f) ∈ L → ¬ hasField f (JObj (filterIgnoredFields data L)).
Proof.
  induction data as [data IHobj IHarr] using resource_ind. intros L Hin Hhas.
  assert (matchesIgnorePattern f L = true) as Hm.
  { apply matchesIgnorePattern_true. by right. }
  inversion Hhas as [m [w Hw]|m k v Hk Hv|]; subst.
  - rewrite filterIgnoredFields_lookup, Hm in Hw. done.
  - rewrite filterIgnoredFields_lookup in Hk.
    destruct (matchesIgnorePattern k L); first done.
    destruct (data !! k) as [v0|] eqn:Hk0; last done.
    cbn in Hk. injection Hk as <-.
    pose proof (wildcard_descends f k L Hin) as Hin'.
    destruct v0 as [| | | |m0|l0]; cbn [filterValue] in Hv; try (by inversion Hv).
    + by apply (IHobj k m0 Hk0 _ Hin').
    + inversion Hv as [| |l m Hel Hm']; subst.
      apply list_elem_of_fmap in Hel as (e & He & Hine).
      destruct e as [| | | |m0|]; try done.
      rewrite filterElem_obj in He. injection He as ->.
      by apply (IHarr k l0 m0 Hk0 Hine _ Hin').
Qed.

(** ** mergeIgnoredFields, key by key *)

Lemma mergeIgnoredFields_lookup (desired api : gmap string json) L k :
  mergeIgnoredFields desired api L !! k =
    match api !! k with
    | Some apiValue => mergeValue L k (desired !! k) apiValue
    | None => desired !! k
    end.
Proof.
  unfold mergeIgnoredFields. cbn [mergeIgnoredFields_rec]. revert k.
  apply (map_fold_weak_ind
           (λ (r m : gmap string json),
              ∀ k, r !! k = match m !! k with
                            | Some apiValue => mergeValue L k (desired !! k) apiValue
                            | None => desired !! k
                            end)).
  - intros k. by rewrite lookup_empty.
  - intros i x m r Hi IH k. unfold mergeKey.
    pose proof (IH i) as IHi. rewrite Hi in IHi.
    destruct (decide (i = k)) as [->|Hne].
    + rewrite lookup_insert_eq. unfold mergeValue.
      destruct (matchesIgnorePattern k L); first by rewrite lookup_insert_eq.
      rewrite IHi.
      destruct (desired !! k) as [[| | | |dm|]|] eqn:Hd; try by rewrite IHi.
      destruct x; try by rewrite IHi. by rewrite lookup_insert_eq.
    + rewrite (lookup_insert_ne m) by done. rewrite <-IH.
      destruct (matchesIgnorePattern i L); first by rewrite lookup_insert_ne.
      destruct (r !! i) as [[| | | |dm|]|]; try done.
      destruct x; try done. by rewrite lookup_insert_ne.
Qed.

(** X2. The keys after the merge: those of [desired] and the ignored ones of
    [api]. *)
Theorem mergeIgnoredFields_dom (desired api : gmap string json) L :
  dom (mergeIgnoredFields desired api L) =
    dom desired ∪ filter (λ k, matchesIgnorePattern k L = true) (dom api).
Proof.
  apply set_eq. intros k.
  rewrite elem_of_union, elem_of_filter, !elem_of_dom, mergeIgnoredFields_lookup.
  unfold mergeValue.
  destruct (api !! k) as [av|] eqn:Ha.
  - destruct (matchesIgnorePattern k L) eqn:Hm.
    + split; [intros _; right; eauto | eauto].
    + destruct (desired !! k) as [[| | | |dm|]|] eqn:Hd;
        try (split; [intros H; by left | intros [H|[? _]]; done]).
      destruct av; (split; [intros _; left; eauto | eauto]).
  - split; [by left | intros [?|[_ [? ?]]]; done].
Qed.

(** With nothing to ignore the merge gives back [desired]. *)
Lemma mergeIgnoredFields_nil (api : gmap string json) :
  ∀ desired, mergeIgnoredFields desired api [] = desired.
Proof.
  induction api as [api IHobj _] using resource_ind. intros desired.
  apply map_eq. intros k. rewrite mergeIgnoredFields_lookup.
  destruct (api !! k) as [av|] eqn:Ha; last done.
  unfold mergeValue. cbn [matchesIgnorePattern].
  destruct (desired !! k) as [[| | | |dm|]|]; try done.
  destruct av as [| | | |am|]; try done.
  by rewrite descendIgnoreList_nil, (IHobj k am Ha).
Qed.

(** Merging a resource into itself changes nothing. *)
Lemma mergeIgnoredFields_self (data : gmap string json) :
  ∀ L, mergeIgnoredFields data data L = data.
Proof.
  induction data as [data IHobj _] using resource_ind. intros L.
  apply map_eq. intros k. rewrite mergeIgnoredFields_lookup.
  destruct (data !! k) as [v|] eqn:Hk; last done.
  unfold mergeValue. destruct (matchesIgnorePattern k L); first done.
  destruct v as [| | | |m|]; try done.
  by rewrite (IHobj k m Hk).
Qed.

(** ** What the filter and the merge guarantee *)

(** An element of a slice that is not an object is kept as it is, a slice
    nested in the slice included. *)
Lemma filterIgnoredFields_keeps_elements (data : gmap string json) (L : list string)
    k l i e :
  data !! k = Some (JArr l) → matchesIgnorePattern k L = false →
  l !! i = Some e → (∀ m, e ≠ JObj m) →
  ∃ l', filterIgnoredFields data L !! k = Some (JArr l') ∧ l' !! i = Some e.
Proof.
  intros Hk Hm Hi He. rewrite filterIgnoredFields_lookup, Hm, Hk. cbn.
  eexists. split; first done.
  change (map ?g l) with (g <$> l). rewrite list_lookup_fmap, Hi. cbn. f_equal.
  destruct e as [| | | |m|]; try done. by destruct (He m).
Qed.

(** X3. How far a wildcard reaches in the filtered resource. When the ignore
    list holds the wildcard for [f], the field [f] is not a key of the
    filtered resource, nor of any object reached from it through object
    values and through objects that are elements of a slice value. The
    filter reaches no further: an element of a slice that is not an object,
    such as a slice nested in the slice, is kept as it is, with whatever
    fields it holds. *)
Theorem filterIgnoredFields_hides_wildcard_fields (f : string)
    (data : gmap string json) (L : list string) :
  ("*." +:+ f) ∈ L →
  ¬ hasField f (JObj (filterIgnoredFields data L)) ∧
  (∀ k l i e, data !! k = Some (JArr l) → matchesIgnorePattern k L = false →
     l !! i = Some e → (∀ m, e ≠ JObj m) →
     ∃ l', filterIgnoredFields data L !! k = Some (JArr l') ∧ l' !! i = Some e).
Proof.
  intros Hin. split; first by apply filterIgnoredFields_wildcard.
  intros k l i e. apply filterIgnoredFields_keeps_elements.
Qed.

Lemma filterIgnoredFields_hides_wildcard_fields_witness :
  "*.version" ∈ ["*.version"] ∧
  ¬ hasField "version" (JObj (filterIgnoredFields Texts.apiData ["*.version"])).
Proof.
  split; first apply list_elem_of_here.
  apply (proj1 (filterIgnoredFields_hides_wildcard_fields "version" Texts.apiData
                  ["*.version"] (list_elem_of_here _ _))).
Defined.

(** X4. Filtering a resource that is already filtered by the same list changes
    nothing. *)
Theorem filterIgnoredFields_idempotent (data : gmap string json) (L : list string) :
  filterIgnoredFields (filterIgnoredFields data L) L = filterIgnoredFields data L.
Proof. apply filterIgnoredFields_idemp. Qed.

(** X5. With an empty ignore list [filterIgnoredFields] gives back the
    resource and [mergeIgnoredFields] gives back the desired data, nested
    objects and slices included. *)
Theorem empty_ignore_list_changes_nothing (data desired api : gmap string json) :
  filterIgnoredFields data [] = data ∧ mergeIgnoredFields desired api [] = desired.
Proof. split; [apply filterIgnoredFields_nil | apply mergeIgnoredFields_nil]. Qed.

(** X6. The values after the merge: an ignored key that the API has takes the
    value of the API; a key that is not ignored and whose desired value is not
    an object keeps what the desired data holds (a value or nothing); a key
    that the API lacks keeps what the desired data holds. *)
Theorem mergeIgnoredFields_values (desired api : gmap string json) (L : list string)
    (k : string) :
  (matchesIgnorePattern k L = true → is_Some (api !! k) →
     mergeIgnoredFields desired api L !! k = api !! k) ∧
  (matchesIgnorePattern k L = false → (∀ m, desired !! k ≠ Some (JObj m)) →
     mergeIgnoredFields desired api L !! k = desired !! k) ∧
  (api !! k = None → mergeIgnoredFields desired api L !! k = desired !! k).
Proof.
  rewrite mergeIgnoredFields_lookup. unfold mergeValue. repeat split.
  - intros -> [v ->]. done.
  - intros -> Hobj. destruct (api !! k) as [av|]; last done.
    destruct (desired !! k) as [[| | | |dm|]|]; try done.
    by destruct (Hobj dm).
  - by intros ->.
Qed.

(** Merging the ignored fields of the API into the desired data adds
    nothing that the same ignore list does not filter out again. *)
Lemma filter_merge (api : gmap string json) :
  ∀ desired L,
    filterIgnoredFields (mergeIgnoredFields desired api L) L
      = filterIgnoredFields desired L.
Proof.
  induction api as [api IHobj _] using resource_ind. intros desired L.
  apply map_eq. intros k. rewrite !filterIgnoredFields_lookup.
  destruct (matchesIgnorePattern k L) eqn:Hm; first done.
  rewrite mergeIgnoredFields_lookup. unfold mergeValue. rewrite Hm.
  destruct (api !! k) as [av|] eqn:Ha; last done.
  destruct (desired !! k) as [[| | | |dm|]|]; try done.
  destruct av as [| | | |am|]; try done.
  cbn. f_equal. f_equal. apply (IHobj k am Ha).
Qed.

(** X7. What the merge adds to the desired data, the same ignore list filters
    out again: the merged data and the desired data are the same once
    filtered. *)
Theorem filterIgnoredFields_mergeIgnoredFields (desired api : gmap string json)
    (L : list string) :
  filterIgnoredFields (mergeIgnoredFields desired api L) L
    = filterIgnoredFields desired L.
Proof. apply filter_merge. Qed.

(** ** The two loops of patchMidpointObject *)

Section FoldAppend.

Context {A B : Type} (f : string → A → list B → list B) (g : string → A → list B).
Context (Hf : ∀ k v acc, f k v acc = (acc ++ g k v)%list).

Lemma foldr_append init (l : list (string * A)) :
  foldr (uncurry f) init l = (init ++ foldr (uncurry f) [] l)%list.
Proof.
  induction l as [|[k v] l IH]; cbn.
  - by rewrite app_nil_r.
  - by rewrite !Hf, IH, app_assoc.
Qed.

Lemma map_fold_append init (m : gmap string A) :
  map_fold f init m = (init ++ map_fold f [] m)%list.
Proof. rewrite !map_fold_foldr. apply foldr_append. Qed.

Lemma elem_of_foldr_append x (l : list (string * A)) :
  x ∈ foldr (uncurry f) [] l ↔ ∃ k v, (k, v) ∈ l ∧ x ∈ g k v.
Proof.
  induction l as [|[k v] l IH]; cbn.
  - split; [by intros ?%elem_of_nil | by intros (? & ? & ?%elem_of_nil & _)].
  - rewrite Hf, elem_of_app, IH. split.
    + intros [(k1 & v1 & Hin & Hx)|Hx].
      * exists k1, v1. split; [by apply list_elem_of_further | done].
      * exists k, v. split; [by apply list_elem_of_here | done].
    + intros (k1 & v1 & Hin & Hx). apply elem_of_cons in Hin as [[= -> ->]|Hin].
      * by right.
      * left. eauto.
Qed.

Lemma elem_of_map_fold_append x (m : gmap string A) :
  x ∈ map_fold f [] m ↔ ∃ k v, m !! k = Some v ∧ x ∈ g k v.
Proof.
  rewrite map_fold_foldr, elem_of_foldr_append.
  split; intros (k & v & Hk & Hx); exists k, v;
    (split; [by apply elem_of_map_to_list | done]).
Qed.

(** When every key yields at most one element and that element is tagged
    with the key, no tag occurs twice. *)
Lemma NoDup_map_fold_append (tag : B → string) (m : gmap string A) :
  (∀ k v x, x ∈ g k v → tag x = k) →
  (∀ k v, (length (g k v) ≤ 1)%nat) →
  NoDup (tag <$> map_fold f [] m).
Proof.
  intros Htag Hone. rewrite map_fold_foldr.
  pose proof (NoDup_fst_map_to_list m) as Hnd.
  induction (map_to_list m) as [|[k v] l IH]; cbn in *; first constructor.
  apply NoDup_cons in Hnd as [Hk Hnd].
  rewrite Hf, fmap_app. apply NoDup_app. split; [by apply IH|split].
  - intros t Ht Ht2.
    apply list_elem_of_fmap in Ht as (x & -> & Hx).
    apply list_elem_of_fmap in Ht2 as (y & Hy & Hy2).
    apply elem_of_foldr_append in Hx as (k1 & v1 & Hin & Hx).
    rewrite (Htag _ _ _ Hx) in Hy. rewrite (Htag _ _ _ Hy2) in Hy. subst k1.
    apply Hk. apply list_elem_of_fmap. by exists (k, v1).
  - specialize (Hone k v). destruct (g k v) as [|x [|y r]]; cbn in *; try lia.
    + constructor.
    + apply NoDup_singleton.
Qed.

End FoldAppend.

Lemma patchDesired_append L api key v sent :
  patchDesired L api key v sent = (sent ++ desiredOps L api key v)%list.
Proof.
  unfold desiredOps, patchDesired. destruct (api !! key); last done.
  destruct (negb _); [done | by rewrite app_nil_r].
Qed.

Lemma patchDeleted_append L id desiredData key v sent :
  patchDeleted L id desiredData key v sent
    = (sent ++ deletedOps L id desiredData key v)%list.
Proof.
  unfold deletedOps, patchDeleted.
  destruct (bool_decide _); first by rewrite app_nil_r.
  destruct (String.eqb key id); first by rewrite app_nil_r.
  destruct (matchesIgnorePattern key L); [by rewrite app_nil_r | done].
Qed.

(** The desired data that [patchMidpointObject] works with is the merge,
    whether or not the ignore list is empty. *)
Lemma patchOperations_unfold workingData workingApiData L id :
  patchOperations workingData workingApiData L id =
    (map_fold (patchDesired L workingApiData) []
              (mergeIgnoredFields workingData workingApiData L)
     ++ map_fold (patchDeleted L id (mergeIgnoredFields workingData workingApiData L)) []
                 workingApiData)%list.
Proof.
  unfold patchOperations.
  assert ((if Nat.ltb 0 (length L)
           then mergeIgnoredFields workingData workingApiData L else workingData)
          = mergeIgnoredFields workingData workingApiData L) as ->.
  { destruct L; [by rewrite mergeIgnoredFields_nil | done]. }
  apply (map_fold_append _ _ (patchDeleted_append L id _)).
Qed.

Lemma elem_of_desiredOps op L api k v :
  op ∈ desiredOps L api k v ↔
  (api !! k = None ∧ op = sendMidpointPatch L "add" k v) ∨
  (∃ cur, api !! k = Some cur ∧ cur ≠ v ∧ op = sendMidpointPatch L "replace" k v).
Proof.
  unfold desiredOps, patchDesired. destruct (api !! k) as [cur|].
  - destruct (DeepEqual cur v) eqn:E; cbn.
    + apply DeepEqual_eq in E. split; first by intros ?%elem_of_nil.
      intros [[? _]|(c & [= <-] & Hne & _)]; done.
    + apply DeepEqual_neq in E. rewrite list_elem_of_singleton. split.
      * intros ->. right. eauto.
      * intros [[? _]|(c & _ & _ & ->)]; done.
  - cbn. rewrite list_elem_of_singleton. split.
    + intros ->. by left.
    + intros [[_ ->]|(c & ? & _)]; done.
Qed.

Lemma elem_of_deletedOps op L id desiredData k v :
  op ∈ deletedOps L id desiredData k v ↔
  desiredData !! k = None ∧ k ≠ id ∧ matchesIgnorePattern k L = false ∧
  op = ItemDelta "delete" k None.
Proof.
  unfold deletedOps, patchDeleted.
  destruct (desiredData !! k) as [w|] eqn:Hd.
  - rewrite bool_decide_eq_true_2 by eauto.
    split; [by intros ?%elem_of_nil | by intros [? _]].
  - rewrite bool_decide_eq_false_2 by (by intros [? ?]).
    rewrite String_eqb_decide. destruct (decide (k = id)) as [->|Hne].
    + rewrite bool_decide_eq_true_2 by done.
      split; [by intros ?%elem_of_nil | by intros (_ & ? & _)].
    + rewrite bool_decide_eq_false_2 by done.
      destruct (matchesIgnorePattern k L).
      * split; [by intros ?%elem_of_nil | by intros (_ & _ & ? & _)].
      * cbn. rewrite list_elem_of_singleton. split; [by intros -> | by intros (_ & _ & _ & ->)].
Qed.

(** The operations of the part of [patchMidpointObject] that follows the
    unwrapping, whatever the order in which the maps are enumerated: an
    addition for every desired key that the API lacks, a replacement for
    every key that is not ignored and whose merged desired value differs from
    the value of the API, and a deletion for every key of the API that the
    desired data lacks, that is not the id attribute and that is not
    ignored. *)
Lemma patchOperations_elem (op : itemDelta) (d a : gmap string json)
    (L : list string) (id : string) :
  op ∈ patchOperations d a L id ↔
  (∃ k v, d !! k = Some v ∧ a !! k = None ∧ op = sendMidpointPatch L "add" k v) ∨
  (∃ k v cur, matchesIgnorePattern k L = false ∧ a !! k = Some cur ∧
              mergeValue L k (d !! k) cur = Some v ∧ cur ≠ v ∧
              op = sendMidpointPatch L "replace" k v) ∨
  (∃ k, is_Some (a !! k) ∧ d !! k = None ∧ k ≠ id ∧
        matchesIgnorePattern k L = false ∧ op = ItemDelta "delete" k None).
Proof.
  rewrite patchOperations_unfold, elem_of_app.
  rewrite (elem_of_map_fold_append _ _ (patchDesired_append L a)).
  rewrite (elem_of_map_fold_append _ _ (patchDeleted_append L id _)).
  split.
  - intros [(k & v & Hk & Hop)|(k & v & Hk & Hop)].
    + rewrite mergeIgnoredFields_lookup in Hk.
      apply elem_of_desiredOps in Hop as [[Ha ->]|(cur & Ha & Hne & ->)];
        rewrite Ha in Hk.
      * left. eauto.
      * right; left. exists k, v, cur. repeat split; try done.
        unfold mergeValue in Hk. destruct (matchesIgnorePattern k L); [congruence|done].
    + apply elem_of_deletedOps in Hop as (Hd & Hid & Hm & ->).
      rewrite mergeIgnoredFields_lookup, Hk in Hd. unfold mergeValue in Hd.
      rewrite Hm in Hd. right; right. exists k. repeat split; eauto.
      destruct (d !! k) as [[| | | |dm|]|]; try done. by destruct v.
  - intros [(k & v & Hd & Ha & ->)|[(k & v & cur & Hm & Ha & Hv & Hne & ->)|(k & [cur Ha] & Hd & Hid & Hm & ->)]].
    + left. exists k, v. split.
      * by rewrite mergeIgnoredFields_lookup, Ha.
      * apply elem_of_desiredOps. by left.
    + left. exists k, v. split.
      * by rewrite mergeIgnoredFields_lookup, Ha.
      * apply elem_of_desiredOps. right. eauto.
    + right. exists k, cur. split; first done.
      apply elem_of_deletedOps. repeat split; try done.
      rewrite mergeIgnoredFields_lookup, Ha. unfold mergeValue. by rewrite Hm, Hd.
Qed.

Lemma sendMidpointPatch_path L t k v : path (sendMidpointPatch L t k v) = k.
Proof. done. Qed.

Lemma sendMidpointPatch_type L t k v : modificationType (sendMidpointPatch L t k v) = t.
Proof. done. Qed.

(** No key is the path of two operations. *)
Lemma patchOperations_paths_NoDup (d a : gmap string json) (L : list string)
    (id : string) :
  NoDup (path <$> patchOperations d a L id).
Proof.
  rewrite patchOperations_unfold, fmap_app. apply NoDup_app. split; [|split].
  - apply (NoDup_map_fold_append _ _ (patchDesired_append L a)).
    + intros k v x [[_ ->]|(cur & _ & _ & ->)]%elem_of_desiredOps; done.
    + intros k v. unfold desiredOps, patchDesired.
      destruct (a !! k); [destruct (negb _)|]; cbn; lia.
  - intros p Hp Hp2.
    apply list_elem_of_fmap in Hp as (x & -> & Hx).
    apply list_elem_of_fmap in Hp2 as (y & Hy & Hy2).
    apply (elem_of_map_fold_append _ _ (patchDesired_append L a)) in Hx
      as (k & v & Hk & Hx).
    apply (elem_of_map_fold_append _ _ (patchDeleted_append L id _)) in Hy2
      as (k2 & v2 & Hk2 & Hy2).
    apply elem_of_deletedOps in Hy2 as (Hnone & _ & _ & ->). cbn in Hy.
    apply elem_of_desiredOps in Hx as [[_ ->]|(cur & _ & _ & ->)];
      cbn in Hy; subst k2; congruence.
  - apply (NoDup_map_fold_append _ _ (patchDeleted_append L id _)).
    + by intros k v x (_ & _ & _ & ->)%elem_of_deletedOps.
    + intros k v. unfold deletedOps, patchDeleted.
      destruct (bool_decide _); [|destruct (String.eqb _ _); [|destruct (matchesIgnorePattern _ _)]];
        cbn; lia.
Qed.

(** Additions and replacements come first, deletions after them. *)
Lemma patchOperations_order (d a : gmap string json) (L : list string) (id : string) :
  ∃ upserts deletions,
    patchOperations d a L id = (upserts ++ deletions)%list ∧
    Forall (λ op, modificationType op = "add" ∨ modificationType op = "replace") upserts ∧
    Forall (λ op, modificationType op = "delete" ∧ value op = None) deletions.
Proof.
  eexists _, _. split; first apply patchOperations_unfold. split.
  - apply Forall_forall. intros op Hop.
    apply (elem_of_map_fold_append _ _ (patchDesired_append L a)) in Hop
      as (k & v & _ & Hop).
    apply elem_of_desiredOps in Hop as [[_ ->]|(cur & _ & _ & ->)]; [by left|by right].
  - apply Forall_forall. intros op Hop.
    apply (elem_of_map_fold_append _ _ (patchDeleted_append L id _)) in Hop
      as (k & v & _ & Hop).
    by apply elem_of_deletedOps in Hop as (_ & _ & _ & ->).
Qed.

(** ** patchMidpointObject as a whole *)

Lemma patchMidpointObject_unwrap data apiData L id :
  patchMidpointObject data apiData L id =
    patchOperations (unwrap data apiData).1 (unwrap data apiData).2 L id.
Proof. unfold patchMidpointObject. by destruct (unwrap data apiData). Qed.

(** X8. The operations of [patchMidpointObject] in the case that the
    definition embeds: every request succeeds and no reply is read back into
    the data of the API between two requests ([writeReturnsObject] is off),
    so both loops read the same map. Whatever the order in which the maps
    are enumerated, with [d] and [a] the desired data and the data of the API
    after the unwrapping: an addition for every key of [d] that [a] lacks, a
    replacement for every key of [a] that is not ignored and whose merged
    desired value differs from the value in [a], and a deletion for every
    key of [a] that [d] lacks, that is not the id attribute and that is not
    ignored; nothing else. *)
Theorem patchMidpointObject_operations (op : itemDelta) (data apiData : gmap string json)
    (L : list string) (id : string) :
  let d := (unwrap data apiData).1 in
  let a := (unwrap data apiData).2 in
  op ∈ patchMidpointObject data apiData L id ↔
  (∃ k v, d !! k = Some v ∧ a !! k = None ∧ op = sendMidpointPatch L "add" k v) ∨
  (∃ k v cur, matchesIgnorePattern k L = false ∧ a !! k = Some cur ∧
              mergeValue L k (d !! k) cur = Some v ∧ cur ≠ v ∧
              op = sendMidpointPatch L "replace" k v) ∨
  (∃ k, is_Some (a !! k) ∧ d !! k = None ∧ k ≠ id ∧
        matchesIgnorePattern k L = false ∧ op = ItemDelta "delete" k None).
Proof. cbv zeta. rewrite patchMidpointObject_unwrap. apply patchOperations_elem. Qed.

(** X9. No key is the path of two operations of one call. *)
Theorem patchMidpointObject_paths_NoDup (data apiData : gmap string json)
    (L : list string) (id : string) :
  NoDup (path <$> patchMidpointObject data apiData L id).
Proof. rewrite patchMidpointObject_unwrap. apply patchOperations_paths_NoDup. Qed.

(** X10. Additions and replacements are sent first, deletions after them, and
    a deletion carries no value. *)
Theorem patchMidpointObject_order (data apiData : gmap string json) (L : list string)
    (id : string) :
  ∃ upserts deletions,
    patchMidpointObject data apiData L id = (upserts ++ deletions)%list ∧
    Forall (λ op, modificationType op = "add" ∨ modificationType op = "replace") upserts ∧
    Forall (λ op, modificationType op = "delete" ∧ value op = None) deletions.
Proof. rewrite patchMidpointObject_unwrap. apply patchOperations_order. Qed.

Lemma unwrap_self (data : gmap string json) : (unwrap data data).1 = (unwrap data data).2.
Proof.
  unfold unwrap. destruct (_ && _); last done.
  destruct (String.eqb _ _); last done.
  destruct (data !! singleKey data) as [[| | | |m|]|]; done.
Qed.

Lemma patchOperations_self (d : gmap string json) L id : patchOperations d d L id = [].
Proof.
  destruct (patchOperations d d L id) as [|op ops] eqn:E; first done.
  assert (op ∈ patchOperations d d L id) as Hop by (rewrite E; apply list_elem_of_here).
  apply patchOperations_elem in Hop
    as [(k & v & Hd & Ha & _)|[(k & v & cur & Hm & Ha & Hv & Hne & _)|(k & [cur Ha] & Hd & _)]];
    try congruence.
  rewrite Ha in Hv. unfold mergeValue in Hv. rewrite Hm in Hv.
  destruct cur as [| | | |m|]; try congruence.
  rewrite mergeIgnoredFields_self in Hv. congruence.
Qed.

(** X11. When the desired data is the data of the API, nothing is sent. *)
Theorem patchMidpointObject_self (data : gmap string json) (L : list string)
    (id : string) :
  patchMidpointObject data data L id = [].
Proof.
  rewrite patchMidpointObject_unwrap, unwrap_self. apply patchOperations_self.
Qed.

(** X12. What [patchMidpointObject] never deletes. A deletion is never for
    the id attribute, never for a key that the ignore list matches and
    never for a key that the desired data (after the unwrapping) holds, and
    it carries no value. *)
Theorem patchMidpointObject_protects (data apiData : gmap string json)
    (L : list string) (id : string) (op : itemDelta) :
  op ∈ patchMidpointObject data apiData L id →
  modificationType op = "delete" →
  path op ≠ id ∧ matchesIgnorePattern (path op) L = false ∧
  (unwrap data apiData).1 !! path op = None ∧ value op = None.
Proof.
  rewrite patchMidpointObject_unwrap.
  intros [(k & v & Hd & Ha & ->)|[(k & v & cur & Hm & Ha & Hv & Hne & ->)|(k & [cur Ha] & Hd & Hid & Hm & ->)]]%patchOperations_elem;
    cbn; try discriminate.
  by intros _.
Qed.

Lemma patchMidpointObject_protects_witness :
  path (ItemDelta "delete" "@metadata" None) ≠ "oid" ∧
  matchesIgnorePattern (path (ItemDelta "delete" "@metadata" None)) ["*.metadata"]
    = false ∧
  (unwrap Samples.roleDesired Samples.roleApi).1
    !! path (ItemDelta "delete" "@metadata" None) = None ∧
  value (ItemDelta "delete" "@metadata" None) = None.
Proof.
  apply (patchMidpointObject_protects Samples.roleDesired Samples.roleApi
           ["*.metadata"] "oid" (ItemDelta "delete" "@metadata" None)).
  - vm_compute. apply list_elem_of_further, list_elem_of_here.
  - reflexivity.
Defined.

Lemma sendMidpointPatch_value L t k v w :
  value (sendMidpointPatch L t k v) = Some w →
  match v with
  | JObj mapValue => w = JObj (filterIgnoredFields mapValue L)
  | JArr sliceValue =>
      w = JArr (map (λ elem, match elem with
                             | JObj mapElem => JObj (filterIgnoredFields mapElem L)
                             | _ => elem
                             end) sliceValue)
  | JNull => False
  | _ => w = v
  end.
Proof.
  unfold sendMidpointPatch. cbn.
  destruct (negb (String.eqb t "delete")); cbn; last done.
  destruct v; cbn; try done; by intros [= <-].
Qed.

(** X13. How far the ignore list reaches in the value of an operation. A
    field that a wildcard names is not a key of the value, nor of any object
    reached from it through object values and through objects that are
    elements of a slice value (a slice nested in a slice is not looked
    into); and when the value is an object, none of its top-level keys
    matches the list. *)
Theorem patchMidpointObject_values_filtered (data apiData : gmap string json)
    (L : list string) (id : string) (op : itemDelta) (w : json) :
  op ∈ patchMidpointObject data apiData L id →
  value op = Some w →
  (∀ f, ("*." +:+ f) ∈ L → ¬ hasField f w) ∧
  (∀ m k, w = JObj m → matchesIgnorePattern k L = true → m !! k = None).
Proof.
  rewrite patchMidpointObject_unwrap.
  assert (∀ t k v, value (sendMidpointPatch L t k v) = Some w →
            (∀ f, ("*." +:+ f) ∈ L → ¬ hasField f w) ∧
            (∀ m k, w = JObj m → matchesIgnorePattern k L = true → m !! k = None))
    as Hsend.
  { intros t k v Hv. apply sendMidpointPatch_value in Hv.
    destruct v as [|b|n|s|mapValue|sliceValue]; try done; subst w.
    - split; [intros f _ Hhas; inversion Hhas | done].
    - split; [intros f _ Hhas; inversion Hhas | done].
    - split; [intros f _ Hhas; inversion Hhas | done].
    - split.
      + intros f Hin. by apply filterIgnoredFields_wildcard.
      + intros m k' [= <-] Hm. by rewrite filterIgnoredFields_lookup, Hm.
    - split; last done.
      intros f Hin Hhas. inversion Hhas as [| |l m Hel Hm]; subst.
      apply list_elem_of_fmap in Hel as (e & He & _).
      destruct e as [| | | |mapElem|]; try done. injection He as ->.
      by apply (filterIgnoredFields_wildcard f mapElem L Hin). }
  intros [(k & v & _ & _ & ->)|[(k & v & cur & _ & _ & _ & _ & ->)|(k & _ & _ & _ & _ & ->)]]%patchOperations_elem Hv.
  - by apply (Hsend "add" k v).
  - by apply (Hsend "replace" k v).
  - done.
Qed.

Lemma patchMidpointObject_values_filtered_witness :
  (∀ f, ("*." +:+ f) ∈ ["*.version"] →
        ¬ hasField f (JObj {[ "oid" := JStr "1" ]})) ∧
  (∀ m k, JObj {[ "oid" := JStr "1" ]} = JObj m →
          matchesIgnorePattern k ["*.version"] = true → m !! k = None).
Proof.
  apply (patchMidpointObject_values_filtered Texts.apiData Texts.staleData
           ["*.version"] "oid"
           (ItemDelta "replace" "owner" (Some (JObj {[ "oid" := JStr "1" ]})))).
  - vm_compute. apply list_elem_of_here.
  - reflexivity.
Defined.

(** ** What getDelta does to single keys *)

Lemma nilFree_singleton k v : nilFree v → nilFree (JObj {[ k := v ]}).
Proof.
  intros Hv. constructor. intros j w Hj.
  by apply lookup_singleton_Some in Hj as [_ <-].
Qed.

Lemma nilFree_insert k v (m : gmap string json) :
  nilFree v → nilFree (JObj m) → nilFree (JObj (<[k := v]> m)).
Proof.
  intros Hv Hm. inversion Hm as [| | | |? Hvals|]; subst.
  constructor. intros j w Hj.
  apply lookup_insert_Some in Hj as [[_ <-]|[_ Hj]]; [done | by apply (Hvals j)].
Qed.

(** A key for which no change is found keeps its recorded value. *)
Lemma keyDelta_unchanged A L k vR v :
  keyDelta A L k vR = Some (v, false) → v = vR.
Proof.
  unfold keyDelta, deltaKey.
  destruct (matchesIgnorePattern k L); first by intros [= <-].
  destruct vR as [|b|n|s|m|l]; cbn zeta.
  - destruct (A !! k) as [w|]; cbn; last by intros [= <-].
    destruct w; cbn; by intros [= <-].
  - destruct (ifaceEq _ _) as [same|]; cbn; last done.
    by destruct (negb same); intros [= <-].
  - destruct (ifaceEq _ _) as [same|]; cbn; last done.
    by destruct (negb same); intros [= <-].
  - destruct (ifaceEq _ _) as [same|]; cbn; last done.
    by destruct (negb same); intros [= <-].
  - destruct (default JNull (A !! k)) as [| | | |B|]; try done.
    destruct (getDelta_rec _ _ _) as [[sub ch]|]; cbn; last done.
    by destruct ch; intros [= <-].
  - destruct (default JNull (A !! k)) as [| | | | |lA];
      try (by destruct (negb (DeepEqual _ _)); intros [= <-]).
    destruct (negb _); first done.
    destruct (deltaSlice _ _ _) as [[ms sc]|]; cbn; last done.
    by destruct sc; intros [= <-].
Qed.

Lemma getDelta_no_change (R A : gmap string json) (L : list string)
    (M : gmap string json) :
  getDelta R A L = Some (M, false) → M = R.
Proof.
  intros Hget. destruct (getDelta_Some _ _ _ _ _ Hget) as (H1 & H2 & H3).
  apply map_eq. intros k. destruct (R !! k) as [vR|] eqn:Hk.
  - destruct (H1 k vR Hk) as (v & ch & Hv & ->). f_equal.
    destruct ch.
    + assert (false = true) by (apply H3; left; eauto). done.
    + by apply (keyDelta_unchanged A L k).
  - rewrite (H2 k Hk). destruct (matchesIgnorePattern k L) eqn:Hm; first done.
    destruct (A !! k) as [vA|] eqn:HA; last done.
    assert (false = true) by (apply H3; right; eauto). done.
Qed.

(** X14. When [getDelta] reports no change, the merged resource is the
    recorded one. *)
Theorem getDelta_unchanged (R A : gmap string json) (L : list string)
    (M : gmap string json) :
  getDelta R A L = Some (M, false) → M = R.
Proof. apply getDelta_no_change. Qed.

Lemma getDelta_unchanged_witness : Samples.nullRecorded = Samples.nullRecorded.
Proof.
  apply (getDelta_unchanged Samples.nullRecorded Samples.nullActual []).
  vm_compute. reflexivity.
Defined.

(** X15. On an ignored key the merged resource agrees with the recorded one,
    whatever the actual resource holds there. *)
Theorem getDelta_ignored_key (R A : gmap string json) (L : list string)
    (M : gmap string json) (c : bool) (k : string) :
  getDelta R A L = Some (M, c) →
  matchesIgnorePattern k L = true →
  M !! k = R !! k.
Proof.
  intros Hget Hm. destruct (getDelta_Some _ _ _ _ _ Hget) as (H1 & H2 & _).
  destruct (R !! k) as [vR|] eqn:Hk.
  - destruct (H1 k vR Hk) as (v & ch & Hv & ->).
    rewrite (keyDelta_ignored A L k vR Hm) in Hv. congruence.
  - by rewrite (H2 k Hk), Hm.
Qed.

Lemma getDelta_ignored_key_witness :
  Samples.keysMerged !! "c" = Samples.keysRecorded !! "c".
Proof.
  apply (getDelta_ignored_key Samples.keysRecorded Samples.keysActual ["c"]
           Samples.keysMerged true "c").
  - vm_compute. reflexivity.
  - reflexivity.
Defined.

(** X16. A key that only the actual resource has and that is not ignored is
    a change that the merged resource takes over: whenever [getDelta]
    returns, the flag is set and the merged resource holds the actual value
    at that key; and [getDelta] does return, with that outcome, when no
    slice of the recorded resource holds a nil element. *)
Theorem getDelta_added_key (R A : gmap string json) (L : list string)
    (k : string) (v : json) :
  R !! k = None → A !! k = Some v → matchesIgnorePattern k L = false →
  (nilFree (JObj R) → ∃ M, getDelta R A L = Some (M, true) ∧ M !! k = Some v) ∧
  (∀ M c, getDelta R A L = Some (M, c) → c = true ∧ M !! k = Some v).
Proof.
  intros HR HA Hm.
  assert (∀ M c, getDelta R A L = Some (M, c) → c = true ∧ M !! k = Some v) as Hret.
  { intros M c Hget. destruct (getDelta_Some _ _ _ _ _ Hget) as (_ & H2 & H3).
    split.
    - apply H3. right. eauto.
    - by rewrite (H2 k HR), Hm. }
  split; last done.
  intros Hfree. destruct (getDelta_returns_nilFree R Hfree A L) as [[M c] Hget].
  destruct (Hret M c Hget) as [-> HM]. eauto.
Qed.

Lemma getDelta_added_key_witness :
  ∃ M, getDelta Samples.keysRecorded Samples.keysActual ["c"] = Some (M, true) ∧
       M !! "b" = Some (JNum 2).
Proof.
  apply (getDelta_added_key Samples.keysRecorded Samples.keysActual ["c"] "b" (JNum 2)).
  - vm_compute. reflexivity.
  - vm_compute. reflexivity.
  - reflexivity.
  - apply nilFree_singleton, nilFree_num.
Defined.

(** X17. A key that is recorded with a value other than null, that is not
    ignored and that the actual resource lacks is a change: whenever
    [getDelta] returns, the flag is set and the merged resource holds null
    at that key; and [getDelta] does return, with that outcome, when no
    slice of the recorded resource holds a nil element. *)
Theorem getDelta_removed_key (R A : gmap string json) (L : list string)
    (k : string) (vR : json) :
  R !! k = Some vR → vR ≠ JNull → A !! k = None →
  matchesIgnorePattern k L = false →
  (nilFree (JObj R) → ∃ M, getDelta R A L = Some (M, true) ∧ M !! k = Some JNull) ∧
  (∀ M c, getDelta R A L = Some (M, c) → c = true ∧ M !! k = Some JNull).
Proof.
  intros HR Hnil HA Hm.
  assert (∀ M c, getDelta R A L = Some (M, c) → c = true ∧ M !! k = Some JNull)
    as Hret.
  { intros M c Hget. destruct (getDelta_Some _ _ _ _ _ Hget) as (H1 & _ & H3).
    destruct (H1 k vR HR) as (v & ch & Hv & HM).
    assert (keyDelta A L k vR = Some (JNull, true)) as Hkey.
    { unfold keyDelta, deltaKey. rewrite Hm, HA. cbn.
      destruct vR as [|b|n|s|m|l]; try done. }
    rewrite Hkey in Hv. injection Hv as <- <-. split; last done.
    apply H3. left. eauto. }
  split; last done.
  intros Hfree. destruct (getDelta_returns_nilFree R Hfree A L) as [[M c] Hget].
  destruct (Hret M c Hget) as [-> HM]. eauto.
Qed.

Lemma getDelta_removed_key_witness :
  ∃ M, getDelta {[ "foo" := JStr "bar"; "id" := JStr "foobar" ]}
         {[ "foo" := JStr "bar" ]} [] = Some (M, true) ∧
       M !! "id" = Some JNull.
Proof.
  apply (getDelta_removed_key {[ "foo" := JStr "bar"; "id" := JStr "foobar" ]}
           {[ "foo" := JStr "bar" ]} [] "id" (JStr "foobar")).
  - vm_compute. reflexivity.
  - discriminate.
  - vm_compute. reflexivity.
  - reflexivity.
  - apply nilFree_insert; [apply nilFree_str|].
    apply nilFree_singleton, nilFree_str.
Defined.

Lemma nilFree_lookup (m : gmap string json) k v :
  nilFree (JObj m) → m !! k = Some v → nilFree v.
Proof. intros H. inversion H as [| | | |? Hvals|]; subst. apply Hvals. Qed.

Lemma nilFree_elem l e : nilFree (JArr l) → e ∈ l → e ≠ JNull ∧ nilFree e.
Proof.
  intros H. inversion H as [| | | | |? Helems]; subst.
  rewrite Forall_forall in Helems. apply Helems.
Qed.

(** Comparing a resource with itself finds nothing at any key. *)
Lemma keyDelta_self_flag (T : gmap string json) L k vR v ch :
  (∀ R', vR = JObj R' → ∀ L', getDelta R' R' L' = Some (R', false)) →
  (∀ l R', vR = JArr l → JObj R' ∈ l → ∀ L', getDelta R' R' L' = Some (R', false)) →
  T !! k = Some vR →
  keyDelta T L k vR = Some (v, ch) → ch = false.
Proof.
  intros IHobj IHarr Hk. unfold keyDelta, deltaKey. rewrite Hk. cbn.
  destruct (matchesIgnorePattern k L); first by intros [= _ <-].
  destruct vR as [|b|n|s|m|l].
  - by intros [= _ <-].
  - cbn. rewrite Bool.eqb_reflx. by intros [= _ <-].
  - cbn. rewrite Z.eqb_refl. by intros [= _ <-].
  - cbn. rewrite (proj2 (String.eqb_eq s s) eq_refl). by intros [= _ <-].
  - rewrite getDelta_rec_obj, (IHobj m eq_refl). cbn. by intros [= _ <-].
  - rewrite Nat.eqb_refl. cbn [negb].
    destruct (deltaSlice _ l l) as [[ms sc]|] eqn:Hslice; cbn; last done.
    destruct sc; last by intros [= _ <-].
    exfalso. destruct (deltaSlice_Some _ _ _ _ _ eq_refl Hslice) as (_ & _ & Hsc).
    destruct (proj1 Hsc eq_refl) as (i & r & a & e & Hr & Ha & He).
    assert (a = r) as -> by congruence.
    unfold deltaElem in He. destruct r as [| | | |m|]; try done;
      try (by rewrite DeepEqual_refl in He).
    rewrite getDelta_rec_obj, (IHarr l m eq_refl) in He; first done.
    apply list_elem_of_lookup. eauto.
Qed.

Lemma getDelta_refl (T : gmap string json) :
  nilFree (JObj T) → ∀ L, getDelta T T L = Some (T, false).
Proof.
  induction T as [T IHobj IHarr] using resource_ind. intros Hfree L.
  destruct (getDelta_returns_nilFree T Hfree T L) as [[M c] Hget].
  assert (c = false) as ->.
  { destruct c; last done.
    destruct (getDelta_Some _ _ _ _ _ Hget) as (_ & _ & H3).
    destruct (proj1 H3 eq_refl) as [(k & vR & v & Hk & Hv)|(k & vA & HA & HR & _)];
      last congruence.
    eapply (keyDelta_self_flag T L k vR v); [| |exact Hk|exact Hv].
    - intros R' -> L'. apply (IHobj k R' Hk).
      by apply (nilFree_lookup T k).
    - intros l R' -> Hin L'. apply (IHarr k l R' Hk Hin).
      apply (nilFree_elem l); [by apply (nilFree_lookup T k) | done]. }
  by rewrite Hget, (getDelta_no_change T T L M Hget).
Qed.

(** X18. A resource whose slices hold no nil element does not differ from
    itself, under any ignore list, and the merged resource is the resource
    itself. *)
Theorem getDelta_self (T : gmap string json) (L : list string) :
  nilFree (JObj T) → getDelta T T L = Some (T, false).
Proof. intros Hfree. by apply getDelta_refl. Qed.

Lemma getDelta_self_witness :
  getDelta Samples.listRecorded Samples.listRecorded ["*.val"]
    = Some (Samples.listRecorded, false).
Proof.
  apply (getDelta_self Samples.listRecorded ["*.val"]).
  apply nilFree_singleton, nilFree_arr.
  apply List.Forall_cons; [split; [discriminate | apply nilFree_str]|].
  apply List.Forall_cons;
    [split; [discriminate | apply nilFree_singleton, nilFree_str]|].
  apply List.Forall_cons; [split; [discriminate | apply nilFree_str]|].
  apply List.Forall_nil.
Defined.

(** ** The drift check of resourceRestAPIRead *)

Lemma flag_bind {X} (x : option (X * bool)) (f : X → json) (y : json) :
  snd <$> (x ≫= λ '(sub, ch), if ch : bool then Some (f sub, true) else Some (y, false))
    = snd <$> x.
Proof. by destruct x as [[sub []]|]. Qed.

Lemma flag_None {X} (x : option (X * bool)) : snd <$> x = None ↔ x = None.
Proof. by destruct x. Qed.

Lemma flag_Some {X} (x : option (X * bool)) c :
  snd <$> x = Some c ↔ ∃ v, x = Some (v, c).
Proof.
  destruct x as [[v c']|]; cbn.
  - split; [intros [= ->]; eauto | by intros (? & [= _ ->])].
  - split; [done | by intros (? & ?)].
Qed.

Lemma DeepEqual_obj_other (m : gmap string json) a :
  match a with JObj _ => False | _ => True end → DeepEqual (JObj m) a = false.
Proof. by destruct a. Qed.

Lemma elemDelta_filter dl r a :
  (∀ m, r = JObj m → filterInvisible m) →
  snd <$> elemDelta dl (filterElem filterIgnoredFields_rec dl r) a
    = snd <$> elemDelta dl r a.
Proof.
  intros IH. destruct r as [| | | |m|]; try done.
  rewrite filterElem_obj. unfold elemDelta, deltaElem.
  destruct a as [| | | |B|]; try done.
  rewrite !getDelta_rec_obj, !flag_bind. apply (IH m eq_refl).
Qed.

Lemma deltaSlice_flag_ext (elem1 elem2 : json → json → option (json * bool))
    (φ : json → json) l :
  (∀ r a, r ∈ l → snd <$> elem1 (φ r) a = snd <$> elem2 r a) →
  ∀ lA, snd <$> deltaSlice elem1 (φ <$> l) lA = snd <$> deltaSlice elem2 l lA.
Proof.
  induction l as [|r rs IH]; intros Hel [|a lA]; try done.
  cbn. pose proof (Hel r a ltac:(apply list_elem_of_here)) as H1.
  specialize (IH (λ r' a' Hin, Hel r' a' (list_elem_of_further _ _ _ Hin)) lA).
  change (list_fmap json json φ rs) with (φ <$> rs).
  destruct (elem1 (φ r) a) as [[e1 c1]|], (elem2 r a) as [[e2 c2]|]; cbn in *; try done.
  injection H1 as ->.
  destruct (deltaSlice elem1 (φ <$> rs) lA) as [[es1 cs1]|],
           (deltaSlice elem2 rs lA) as [[es2 cs2]|]; cbn in *; try done.
  by injection IH as ->.
Qed.

Lemma keyDelta_filter A L k v :
  (∀ m, v = JObj m → filterInvisible m) →
  (∀ l m, v = JArr l → JObj m ∈ l → filterInvisible m) →
  matchesIgnorePattern k L = false →
  snd <$> keyDelta A L k (filterValue L k v) = snd <$> keyDelta A L k v.
Proof.
  intros IHobj IHarr Hm. destruct v as [| | | |m|l]; try done.
  - cbn [filterValue]. unfold keyDelta, deltaKey. rewrite Hm.
    destruct (default JNull (A !! k)) as [| | | |B|]; try done.
    rewrite !getDelta_rec_obj, !flag_bind. apply (IHobj m eq_refl).
  - cbn [filterValue]. unfold keyDelta, deltaKey. rewrite Hm.
    destruct (default JNull (A !! k)) as [| | | | |lA]; try done.
    rewrite length_map.
    destruct (negb (Nat.eqb (length l) (length lA))); first done.
    rewrite !flag_bind.
    apply (deltaSlice_flag_ext _ _ _ l).
    intros r a Hin. apply (elemDelta_filter (_descendIgnoreList k L) r a).
    intros m' ->. by apply (IHarr l m').
Qed.

Lemma filterIgnoredFields_invisible (R : gmap string json) : filterInvisible R.
Proof.
  induction R as [R IHobj IHarr] using resource_ind. intros A L.
  assert (∀ k v, R !! k = Some v → matchesIgnorePattern k L = false →
            snd <$> keyDelta A L k (filterValue L k v) = snd <$> keyDelta A L k v)
    as Hkey.
  { intros k v Hk Hm. apply keyDelta_filter; [| |done].
    - intros m ->. by apply (IHobj k).
    - intros l m -> Hin. by apply (IHarr k l). }
  assert (∀ k w, filterIgnoredFields R L !! k = Some w →
            matchesIgnorePattern k L = false ∧
            ∃ v, R !! k = Some v ∧ w = filterValue L k v) as Hfilt.
  { intros k w. rewrite filterIgnoredFields_lookup.
    destruct (matchesIgnorePattern k L); first done.
    destruct (R !! k) as [v|]; last done. intros [= <-]. eauto. }
  assert (∀ k v, R !! k = Some v → matchesIgnorePattern k L = false →
            filterIgnoredFields R L !! k = Some (filterValue L k v)) as Hkeep.
  { intros k v Hk Hm. by rewrite filterIgnoredFields_lookup, Hm, Hk. }
  destruct (getDelta R A L) as [[M c]|] eqn:HR.
  - destruct (getDelta (filterIgnoredFields R L) A L) as [[M' c']|] eqn:HF.
    + destruct (getDelta_Some _ _ _ _ _ HR) as (_ & _ & H3).
      destruct (getDelta_Some _ _ _ _ _ HF) as (_ & _ & H3').
      cbn. f_equal. apply eq_true_iff_eq. rewrite H3, H3'. split.
      * intros [(k & w & x & Hk & Hx)|(k & vA & HA & Hnone & Hm)].
        -- destruct (Hfilt k w Hk) as (Hm & v & Hv & ->).
           left. pose proof (Hkey k v Hv Hm) as E. rewrite Hx in E. cbn in E.
           symmetry in E. apply flag_Some in E as (x' & Hx'). eauto.
        -- right. exists k, vA. repeat split; try done.
           rewrite filterIgnoredFields_lookup, Hm in Hnone.
           by destruct (R !! k).
      * intros [(k & v & x & Hk & Hx)|(k & vA & HA & Hnone & Hm)].
        -- assert (matchesIgnorePattern k L = false) as Hm.
           { destruct (matchesIgnorePattern k L) eqn:Hm; last done.
             rewrite (keyDelta_ignored A L k v Hm) in Hx. done. }
           left. pose proof (Hkey k v Hk Hm) as E. rewrite Hx in E. cbn in E.
           apply flag_Some in E as (x' & Hx'). exists k, (filterValue L k v), x'. eauto.
        -- right. exists k, vA. repeat split; try done.
           by rewrite filterIgnoredFields_lookup, Hm, Hnone.
    + apply getDelta_None in HF as (k & w & Hk & Hnone).
      destruct (Hfilt k w Hk) as (Hm & v & Hv & ->).
      pose proof (Hkey k v Hv Hm) as E. rewrite Hnone in E. cbn in E.
      symmetry in E. apply flag_None in E.
      assert (getDelta R A L = None) by (apply getDelta_None; eauto). congruence.
  - apply getDelta_None in HR as (k & v & Hk & Hnone).
    assert (matchesIgnorePattern k L = false) as Hm.
    { destruct (matchesIgnorePattern k L) eqn:Hm; last done.
      rewrite (keyDelta_ignored A L k v Hm) in Hnone. done. }
    pose proof (Hkey k v Hk Hm) as E. rewrite Hnone in E. cbn in E.
    apply flag_None in E.
    assert (getDelta (filterIgnoredFields R L) A L = None) as ->; last done.
    apply getDelta_None. eauto.
Qed.

Lemma readStateData_filter data L : readStateData data L = filterIgnoredFields data L.
Proof. unfold readStateData. destruct L; [by rewrite filterIgnoredFields_nil | done]. Qed.

Lemma readDataToStore_filter apiData L :
  readDataToStore apiData L = filterIgnoredFields apiData L.
Proof. unfold readDataToStore. destruct L; [by rewrite filterIgnoredFields_nil | done]. Qed.

(** X19. The check of [resourceRestAPIRead]: comparing the filtered state data
    with the data of the API reports what comparing the state data itself
    reports (the same flag, or a panic in both cases). *)
Theorem read_filter_does_not_change_the_check (data apiData : gmap string json)
    (L : list string) :
  readHasDifferences data apiData L = snd <$> getDelta data apiData L.
Proof.
  unfold readHasDifferences. rewrite readStateData_filter.
  apply filterIgnoredFields_invisible.
Qed.

(** X20. Reading twice: when the state holds what the last read stored and the
    API still returns the same data, with no nil element in its slices, the
    check finds no difference. *)
Theorem read_after_read_no_differences (apiData : gmap string json) (L : list string) :
  nilFree (JObj apiData) →
  readHasDifferences (readDataToStore apiData L) apiData L = Some false.
Proof.
  intros Hfree. unfold readHasDifferences.
  rewrite readStateData_filter, readDataToStore_filter, filterIgnoredFields_idemp.
  rewrite filterIgnoredFields_invisible. by rewrite (getDelta_refl apiData Hfree L).
Qed.

Lemma read_after_read_no_differences_witness :
  readHasDifferences (readDataToStore Samples.listRecorded ["*.val"])
    Samples.listRecorded ["*.val"] = Some false.
Proof.
  apply (read_after_read_no_differences Samples.listRecorded ["*.val"]).
  apply nilFree_singleton, nilFree_arr.
  apply List.Forall_cons; [split; [discriminate | apply nilFree_str]|].
  apply List.Forall_cons;
    [split; [discriminate | apply nilFree_singleton, nilFree_str]|].
  apply List.Forall_cons; [split; [discriminate | apply nilFree_str]|].
  apply List.Forall_nil.
Defined.

(** ** Ignore patterns along a path *)

Lemma cutDot_app k rest :
  Spec.cutDot k = None → Spec.cutDot (k +:+ "." +:+ rest) = Some (k, rest).
Proof.
  induction k as [|c k IH]; first done.
  cbn [Spec.cutDot]. destruct (Ascii.eqb c ".") eqn:E; first done.
  destruct (Spec.cutDot k) as [[? ?]|]; first done.
  intros _. change (String c k +:+ "." +:+ rest) with (String c (k +:+ "." +:+ rest)).
  cbn [Spec.cutDot]. by rewrite E, IH.
Qed.

Lemma plainKey_not_wildcard k rest :
  plainKey k → Spec.isWildcard (k +:+ "." +:+ rest) = false.
Proof.
  intros [Hdot Hstar]. destruct k as [|c1 [|c2 k]].
  - by destruct rest.
  - change (Ascii.eqb c1 "*" && Ascii.eqb "." "." = false).
    rewrite andb_true_r. apply Ascii.eqb_neq. intros ->. done.
  - change (Ascii.eqb c1 "*" && Ascii.eqb c2 "." = false).
    cbn in Hdot. destruct (Ascii.eqb c1 "."); first done.
    destruct (Ascii.eqb c2 ".") eqn:E; first done.
    by rewrite andb_false_r.
Qed.

Lemma descendPattern_plain k p q :
  plainKey k →
  Spec.descendPattern k p = Some q ↔
  (Spec.isWildcard p = true ∧ q = p) ∨ p = k +:+ "." +:+ q.
Proof.
  intros Hk. unfold Spec.descendPattern. split.
  - destruct (Spec.isWildcard p); first by (intros [= <-]; left).
    destruct (Spec.cutDot p) as [[first rest]|] eqn:Hcut; last done.
    destruct (decide (first = k)) as [->|]; last done.
    intros [= <-]. right. by apply cutDot_Some in Hcut as [-> _].
  - intros [[Hw ->]| ->]; first by rewrite Hw.
    rewrite (plainKey_not_wildcard k q Hk), (cutDot_app k q (proj1 Hk)).
    by rewrite decide_True.
Qed.

(** X21. One level inside a plain key [k], the field [f] is ignored exactly
    when the list holds the wildcard for [f], the dotted path [k.f], the
    dotted path [k.*.f], or [f] itself when [f] has the shape of a wildcard. *)
Theorem matchesIgnorePattern_descended (k f : string) (L : list string) :
  plainKey k →
  matchesIgnorePattern f (_descendIgnoreList k L) = true ↔
  ("*." +:+ f) ∈ L ∨ (k +:+ "." +:+ f) ∈ L ∨ (k +:+ "." +:+ "*." +:+ f) ∈ L ∨
  (Spec.isWildcard f = true ∧ f ∈ L).
Proof.
  intros Hk. rewrite matchesIgnorePattern_true, !elem_of_descendIgnoreList. split.
  - intros [(p & Hin & Hp)|(p & Hin & Hp)];
      apply (descendPattern_plain k p _ Hk) in Hp as [[Hw ->]| ->]; eauto.
  - intros [H|[H|[H|[Hw H]]]].
    + right. exists ("*." +:+ f). split; first done.
      apply descendPattern_plain; [done | by left].
    + left. exists (k +:+ "." +:+ f). split; first done.
      apply descendPattern_plain; [done | by right].
    + right. exists (k +:+ "." +:+ "*." +:+ f). split; first done.
      apply descendPattern_plain; [done | by right].
    + left. exists f. split; first done.
      apply descendPattern_plain; [done | by left].
Qed.

Lemma matchesIgnorePattern_descended_witness :
  matchesIgnorePattern "change" (_descendIgnoreList "outside" ["outside.change"]) = true ↔
  "*.change" ∈ ["outside.change"] ∨ "outside.change" ∈ ["outside.change"] ∨
  "outside.*.change" ∈ ["outside.change"] ∨
  (Spec.isWildcard "change" = true ∧ "change" ∈ ["outside.change"]).
Proof.
  apply (matchesIgnorePattern_descended "outside" "change" ["outside.change"]).
  split; [reflexivity | discriminate].
Defined.

(** X22. A dotted path is consumed one component per level: after descending
    through the plain keys [k1 ... kn] the pattern [k1. ... .kn.f] ignores the
    field [f]. *)
Theorem dotted_path_reaches_field (keys : list string) (f : string) (L : list string) :
  Forall plainKey keys →
  strings.Join (keys ++ [f]) "." ∈ L →
  matchesIgnorePattern f (descendAlong keys L) = true.
Proof.
  intros Hkeys. revert L. induction Hkeys as [|k keys Hk _ IH]; intros L Hin.
  - apply matchesIgnorePattern_true. by left.
  - cbn [descendAlong foldl]. apply IH.
    apply elem_of_descendIgnoreList. eexists. split; first exact Hin.
    apply descendPattern_plain; first done. right.
    destruct keys; done.
Qed.

Lemma dotted_path_reaches_field_witness :
  matchesIgnorePattern "oid" (descendAlong ["resource"; "connectorRef"]
                                ["resource.connectorRef.oid"]) = true.
Proof.
  apply (dotted_path_reaches_field ["resource"; "connectorRef"] "oid").
  - repeat constructor; discriminate.
  - vm_compute. apply list_elem_of_here.
Defined.

(** X23. A wildcard ignores its field at every depth, whatever the keys on the
    way down. *)
Theorem wildcard_reaches_every_depth (keys : list string) (f : string)
    (L : list string) :
  ("*." +:+ f) ∈ L →
  matchesIgnorePattern f (descendAlong keys L) = true.
Proof.
  revert L. induction keys as [|k keys IH]; intros L Hin.
  - apply matchesIgnorePattern_true. by right.
  - cbn [descendAlong foldl]. apply IH. by apply wildcard_descends.
Qed.

Lemma wildcard_reaches_every_depth_witness :
  matchesIgnorePattern "version" (descendAlong ["a"; "b"; "c"] ["*.version"]) = true.
Proof.
  apply (wildcard_reaches_every_depth ["a"; "b"; "c"] "version").
  apply list_elem_of_here.
Defined.

(** X24. Patterns without a dot are gone one level down: a list of simple keys
    ignores nothing inside any key. *)
Theorem simple_keys_stay_at_their_level (k : string) (L : list string) :
  Forall (λ p, Spec.cutDot p = None) L → _descendIgnoreList k L = [].
Proof.
  intros HL. rewrite descendIgnoreList_spec. unfold Spec.descend.
  induction HL as [|p L Hp _ IH]; first done.
  change (omap (Spec.descendPattern k) (p :: L))
    with (match Spec.descendPattern k p with
          | Some q => q :: omap (Spec.descendPattern k) L
          | None => omap (Spec.descendPattern k) L
          end).
  unfold Spec.descendPattern at 1. rewrite Hp.
  destruct (Spec.isWildcard p) eqn:Hw; last done.
  apply isWildcard_spec in Hw. rewrite Hw in Hp. done.
Qed.

Lemma simple_keys_stay_at_their_level_witness :
  _descendIgnoreList "outer" ["metadata"; "name"] = [].
Proof.
  apply (simple_keys_stay_at_their_level "outer" ["metadata"; "name"]).
  repeat constructor.
Defined.

(** ** Slices of strings *)

Lemma append_cons c a b : String c a +:+ b = String c (a +:+ b).
Proof. done. Qed.

Lemma append_nil_l b : "" +:+ b = b.
Proof. done. Qed.

Lemma append_nil_r a : a +:+ "" = a.
Proof. induction a as [|c a IH]; [done | by rewrite append_cons, IH]. Qed.

Lemma append_assoc a b c : (a +:+ b) +:+ c = a +:+ (b +:+ c).
Proof. induction a as [|x a IH]; [done | by rewrite !append_cons, IH]. Qed.

Lemma length_append a b : String.length (a +:+ b) = (String.length a + String.length b)%nat.
Proof. induction a as [|x a IH]; [done | rewrite append_cons; cbn; by rewrite IH]. Qed.

Lemma bytes_append a b : bytes (a +:+ b) = (bytes a ++ bytes b)%list.
Proof. induction a as [|x a IH]; [done | rewrite append_cons; cbn; by rewrite IH]. Qed.

Lemma sliceTo_append a b : strings.sliceTo (String.length a) (a +:+ b) = a.
Proof. induction a as [|x a IH]; [by destruct b | rewrite append_cons; cbn; by rewrite IH]. Qed.

Lemma sliceFrom_append a b : strings.sliceFrom (String.length a) (a +:+ b) = b.
Proof. induction a as [|x a IH]; [done | rewrite append_cons; cbn; by rewrite IH]. Qed.

Lemma sliceTo_sliceFrom n s : strings.sliceTo n s +:+ strings.sliceFrom n s = s.
Proof.
  revert s. induction n as [|n IH]; intros [|c s]; cbn; try done.
  by rewrite append_cons, IH.
Qed.

Lemma length_sliceTo n s : (n ≤ String.length s)%nat → String.length (strings.sliceTo n s) = n.
Proof.
  revert s. induction n as [|n IH]; intros [|c s]; cbn; try done; try lia.
  intros H. rewrite IH; [done | lia].
Qed.

Lemma LastIndex_bound s sep : (-1 ≤ strings.LastIndex s sep < Z.of_nat (String.length s))%Z.
Proof.
  induction s as [|c s IH]; cbn [strings.LastIndex String.length]; first lia.
  destruct (Z.leb_spec 0 (strings.LastIndex s sep)); first lia.
  destruct (Ascii.eqb c sep); lia.
Qed.

Lemma LastIndex_None s sep : strings.LastIndex s sep = (-1)%Z ↔ sep ∉ bytes s.
Proof.
  induction s as [|c s IH]; cbn [strings.LastIndex bytes].
  - split; [intros _; apply not_elem_of_nil | done].
  - rewrite not_elem_of_cons, <-IH. pose proof (LastIndex_bound s sep).
    destruct (Z.leb_spec 0 (strings.LastIndex s sep)).
    + split; [lia | intros [_ ?]; lia].
    + destruct (Ascii.eqb_spec c sep) as [->|Hne].
      * split; [done | by intros [? _]].
      * split; [intros _; split; [congruence | lia] | done].
Qed.

(** The separator found by [strings.LastIndex] is the last one. *)
Lemma LastIndex_Some s sep :
  (0 ≤ strings.LastIndex s sep)%Z →
  ∃ before after,
    s = before +:+ String sep after ∧
    String.length before = Z.to_nat (strings.LastIndex s sep) ∧ sep ∉ bytes after.
Proof.
  induction s as [|c s IH]; cbn [strings.LastIndex]; first lia.
  destruct (Z.leb_spec 0 (strings.LastIndex s sep)) as [Hpos|Hneg].
  - intros _. destruct (IH Hpos) as (before & after & -> & Hlen & Hafter).
    exists (String c before), after. rewrite append_cons. split; first done.
    split; last done. cbn. rewrite Hlen. lia.
  - destruct (Ascii.eqb_spec c sep) as [->|Hne]; last lia.
    intros _. exists "", s. split; first done. split; first done.
    apply LastIndex_None. pose proof (LastIndex_bound s sep). lia.
Qed.

Lemma LastIndex_append before after sep :
  sep ∉ bytes after →
  strings.LastIndex (before +:+ String sep after) sep = Z.of_nat (String.length before).
Proof.
  intros Hafter. induction before as [|c before IH].
  - rewrite append_nil_l. cbn [strings.LastIndex].
    rewrite (proj2 (LastIndex_None after sep) Hafter). cbn.
    by rewrite Ascii.eqb_refl.
  - rewrite append_cons. cbn [strings.LastIndex String.length]. rewrite IH.
    destruct (Z.leb_spec 0 (Z.of_nat (String.length before))); lia.
Qed.

Lemma HasSuffix_true s suffix :
  strings.HasSuffix s suffix = true → ∃ s0, s = s0 +:+ suffix.
Proof.
  unfold strings.HasSuffix. intros [_ H]%andb_true_iff. apply String.eqb_eq in H.
  exists (strings.sliceTo (String.length s - String.length suffix) s).
  pose proof (sliceTo_sliceFrom (String.length s - String.length suffix) s) as Hs.
  rewrite H in Hs. by symmetry.
Qed.

Lemma HasSuffix_append s0 suffix : strings.HasSuffix (s0 +:+ suffix) suffix = true.
Proof.
  unfold strings.HasSuffix. rewrite length_append. apply andb_true_iff. split.
  - apply Nat.leb_le. lia.
  - replace (String.length s0 + String.length suffix - String.length suffix)%nat
      with (String.length s0) by lia.
    rewrite sliceFrom_append. apply String.eqb_refl.
Qed.

Lemma HasSuffix_slash_last s : strings.HasSuffix s "/" = true → last (bytes s) = Some "/"%char.
Proof.
  intros (s0 & ->)%HasSuffix_true. rewrite bytes_append. cbn. apply last_snoc.
Qed.

(** A non-empty id without a slash leaves no trailing slash. *)
Lemma HasSuffix_slash_id before i :
  i ≠ "" → "/"%char ∉ bytes i → strings.HasSuffix (before +:+ String "/" i) "/" = false.
Proof.
  intros Hi Hslash. destruct (strings.HasSuffix _ _) eqn:E; last done.
  apply HasSuffix_slash_last in E. rewrite bytes_append in E.
  destruct i as [|c i]; first done.
  change (bytes (String "/" (String c i))) with ("/"%char :: c :: bytes i) in E.
  rewrite last_app_cons, last_cons_cons in E.
  apply last_Some_elem_of in E. done.
Qed.

(** ** The import id *)

Lemma importPathAndId_plain path id :
  id ≠ "" → "/"%char ∉ bytes id →
  importPathAndId (path +:+ String "/" id) = Some (path, id).
Proof.
  intros Hid Hslash. unfold importPathAndId.
  rewrite (HasSuffix_slash_id path id Hid Hslash), (LastIndex_append path id "/" Hslash).
  destruct (Z.eqb_spec (Z.of_nat (String.length path)) (-1)); first lia.
  rewrite Nat2Z.id, sliceTo_append. do 2 f_equal.
  replace (String.length path + 1)%nat
    with (String.length (path +:+ "/")) by (rewrite length_append; cbn; lia).
  change (String "/" id) with ("/" +:+ id). rewrite <-append_assoc.
  apply sliceFrom_append.
Qed.

Lemma importPathAndId_trailing path id :
  "/"%char ∉ bytes id →
  importPathAndId (path +:+ String "/" id +:+ "/") = Some (path, id).
Proof.
  intros Hslash. unfold importPathAndId.
  assert (path +:+ String "/" id +:+ "/" = (path +:+ String "/" id) +:+ "/") as Hassoc.
  { change (String "/" id +:+ "/") with (String "/" (id +:+ "/")).
    change (String "/" id) with ("/" +:+ id).
    change (String "/" (id +:+ "/")) with ("/" +:+ (id +:+ "/")).
    by rewrite !append_assoc. }
  rewrite Hassoc, HasSuffix_append.
  assert (String.length ((path +:+ String "/" id) +:+ "/") - 1
          = String.length (path +:+ String "/" id))%nat as Hlen.
  { rewrite (length_append (path +:+ String "/" id)). cbn. lia. }
  rewrite Hlen, sliceTo_append, (LastIndex_append path id "/" Hslash).
  destruct (Z.eqb_spec (Z.of_nat (String.length path)) (-1)); first lia.
  rewrite Nat2Z.id. f_equal. f_equal.
  - rewrite <-Hassoc. apply sliceTo_append.
  - replace (String.length path + 1)%nat
      with (String.length (path +:+ "/")) by (rewrite length_append; cbn; lia).
    assert ((path +:+ String "/" id) +:+ "/" = (path +:+ "/") +:+ (id +:+ "/")) as ->.
    { change (String "/" id) with ("/" +:+ id). by rewrite !append_assoc. }
    rewrite sliceFrom_append.
    replace (String.length (path +:+ String "/" id) - String.length (path +:+ "/"))%nat
      with (String.length id).
    + apply sliceTo_append.
    + rewrite !length_append. cbn. lia.
Qed.

(** X25. Round trip of the import id: a path followed by a slash and an id
    without a slash is split into that path and that id, with or without a
    trailing slash (the id must not be empty when there is none). *)
Theorem importPathAndId_roundtrip (path id : string) :
  "/"%char ∉ bytes id →
  importPathAndId (path +:+ "/" +:+ id +:+ "/") = Some (path, id) ∧
  (id ≠ "" → importPathAndId (path +:+ "/" +:+ id) = Some (path, id)).
Proof.
  intros Hslash. split.
  - apply (importPathAndId_trailing path id Hslash).
  - intros Hid. apply (importPathAndId_plain path id Hid Hslash).
Qed.

Lemma importPathAndId_roundtrip_witness :
  importPathAndId ("/api/objects" +:+ "/" +:+ "1234" +:+ "/") = Some ("/api/objects", "1234") ∧
  ("1234" ≠ "" →
   importPathAndId ("/api/objects" +:+ "/" +:+ "1234") = Some ("/api/objects", "1234")).
Proof.
  apply (importPathAndId_roundtrip "/api/objects" "1234").
  vm_compute. intros H. repeat (apply elem_of_cons in H as [H|H]; [discriminate H|]).
  by apply elem_of_nil in H.
Defined.

Lemma sliceTo_trailing s0 : strings.sliceTo (String.length (s0 +:+ "/") - 1) (s0 +:+ "/") = s0.
Proof.
  rewrite length_append. cbn.
  replace (String.length s0 + 1 - 1)%nat with (String.length s0) by lia.
  apply sliceTo_append.
Qed.

Lemma append_slash_assoc before after :
  (before +:+ String "/" after) +:+ "/" = before +:+ String "/" after +:+ "/".
Proof.
  change (String "/" after +:+ "/") with (String "/" (after +:+ "/")).
  change (String "/" after) with ("/" +:+ after).
  change (String "/" (after +:+ "/")) with ("/" +:+ (after +:+ "/")).
  by rewrite !append_assoc.
Qed.

(** X26. What the import accepts: a result is a path and an id without a slash
    that, with a slash between them and the trailing slash of the input if it
    has one, make up the input. The import fails exactly when the input,
    without its trailing slash, holds no slash. *)
Theorem importPathAndId_spec (input : string) :
  match importPathAndId input with
  | Some (path, id) =>
      ("/"%char ∉ bytes id) ∧
      input = path +:+ "/" +:+ id +:+ (if strings.HasSuffix input "/" then "/" else "")
  | None =>
      (strings.HasSuffix input "/" = false ∧ "/"%char ∉ bytes input) ∨
      (∃ s0, input = s0 +:+ "/" ∧ "/"%char ∉ bytes s0)
  end.
Proof.
  destruct (strings.HasSuffix input "/") eqn:E.
  - destruct (HasSuffix_true _ _ E) as (s0 & ->).
    pose proof (LastIndex_bound s0 "/") as Hb.
    destruct (Z.eqb_spec (strings.LastIndex s0 "/") (-1)) as [Hneg|Hpos].
    + assert (importPathAndId (s0 +:+ "/") = None) as ->.
      { unfold importPathAndId. by rewrite E, sliceTo_trailing, Hneg. }
      right. exists s0. split; first done. by apply LastIndex_None.
    + destruct (LastIndex_Some s0 "/" ltac:(lia))
        as (before & after & -> & _ & Hafter).
      rewrite append_slash_assoc, (importPathAndId_trailing before after Hafter).
      split; first done.
      change (String "/" after +:+ "/") with ("/" +:+ after +:+ "/"). done.
  - pose proof (LastIndex_bound input "/") as Hb.
    destruct (Z.eqb_spec (strings.LastIndex input "/") (-1)) as [Hneg|Hpos].
    + assert (importPathAndId input = None) as ->.
      { unfold importPathAndId. by rewrite E, Hneg. }
      left. split; first done. by apply LastIndex_None.
    + destruct (LastIndex_Some input "/" ltac:(lia))
        as (before & after & -> & _ & Hafter).
      assert (after ≠ "") as Hne.
      { intros ->. by rewrite (HasSuffix_append before "/") in E. }
      rewrite (importPathAndId_plain before after Hne Hafter).
      split; first done.
      change (String "/" after) with ("/" +:+ after). by rewrite !append_nil_r.
Qed.

(** ** suppressDiffForIgnoredFields *)

Lemma DeepEqualMaps_eq x y : DeepEqualMaps x y = true ↔ x = y.
Proof.
  destruct x as [a|], y as [b|]; cbn [DeepEqualMaps]; try (split; congruence).
  rewrite DeepEqual_eq. split; congruence.
Qed.

Lemma filterIgnoredFieldsNil_nil data : filterIgnoredFieldsNil data [] = data.
Proof.
  destruct data; unfold filterIgnoredFieldsNil; [by rewrite filterIgnoredFields_nil | done].
Qed.

Lemma suppressDiffForIgnoredFields_true
    (Unmarshal : string → option (option (gmap string json)))
    (L : list string) (old new : string) :
  suppressDiffForIgnoredFields Unmarshal L old new = true ↔
  old ≠ "" ∧ old ≠ "{}" ∧
  ∃ oldData newData,
    Unmarshal old = Some oldData ∧ Unmarshal new = Some newData ∧
    filterIgnoredFieldsNil oldData L = filterIgnoredFieldsNil newData L.
Proof.
  unfold suppressDiffForIgnoredFields. rewrite !String_eqb_decide.
  destruct (decide (old = "")) as [->|H1].
  { split; [done | by intros [? _]]. }
  destruct (decide (old = "{}")) as [->|H2].
  { split; [done | by intros (_ & ? & _)]. }
  rewrite !bool_decide_eq_false_2 by done. cbn [orb].
  destruct (Unmarshal old) as [o|].
  2: { split; [done | by intros (_ & _ & ? & ? & ? & _)]. }
  destruct (Unmarshal new) as [n|].
  2: { split; [done | by intros (_ & _ & ? & ? & _ & ? & _)]. }
  assert ((if Nat.ltb 0 (length L)
           then DeepEqualMaps (filterIgnoredFieldsNil o L) (filterIgnoredFieldsNil n L)
           else DeepEqualMaps o n)
          = DeepEqualMaps (filterIgnoredFieldsNil o L) (filterIgnoredFieldsNil n L)) as ->.
  { destruct L; [by rewrite !filterIgnoredFieldsNil_nil | done]. }
  rewrite DeepEqualMaps_eq. split.
  - intros Heq. repeat split; try done. eauto.
  - by intros (_ & _ & o' & n' & [= <-] & [= <-] & Heq).
Qed.

(** X27. The diff of the ["data"] attribute is suppressed exactly when the old
    text is neither empty nor [{}], both texts parse, and the two documents
    are equal once the ignored fields are removed from both. *)
Theorem suppressDiffForIgnoredFields_iff
    (Unmarshal : string → option (option (gmap string json)))
    (L : list string) (old new : string) :
  suppressDiffForIgnoredFields Unmarshal L old new = true ↔
  old ≠ "" ∧ old ≠ "{}" ∧
  ∃ oldData newData,
    Unmarshal old = Some oldData ∧ Unmarshal new = Some newData ∧
    filterIgnoredFieldsNil oldData L = filterIgnoredFieldsNil newData L.
Proof. apply suppressDiffForIgnoredFields_true. Qed.

(** X28. The state that [resourceRestAPIRead] stores, the data of the API
    without the ignored fields, shows no diff against a configuration that
    holds the data of the API. *)
Theorem suppressDiffForIgnoredFields_filtered_state
    (Unmarshal : string → option (option (gmap string json)))
    (L : list string) (old new : string) (apiData : gmap string json) :
  old ≠ "" → old ≠ "{}" →
  Unmarshal new = Some (Some apiData) →
  Unmarshal old = Some (Some (filterIgnoredFields apiData L)) →
  suppressDiffForIgnoredFields Unmarshal L old new = true.
Proof.
  intros H1 H2 Hnew Hold. apply suppressDiffForIgnoredFields_true.
  split; [done|]. split; [done|].
  exists (Some (filterIgnoredFields apiData L)), (Some apiData).
  split; [done|]. split; [done|].
  unfold filterIgnoredFieldsNil. by rewrite filterIgnoredFields_idemp.
Qed.

Lemma suppressDiffForIgnoredFields_filtered_state_witness :
  suppressDiffForIgnoredFields Texts.Unmarshal ["*.version"] "state" "config" = true.
Proof.
  apply (suppressDiffForIgnoredFields_filtered_state Texts.Unmarshal ["*.version"]
           "state" "config" Texts.apiData).
  - discriminate.
  - discriminate.
  - reflexivity.
  - reflexivity.
Defined.
